(** * Verification of kwtest.py: the OrdinalTest class

    Shallow embedding of [OrdinalTest] (add_data, get_ranks,
    get_group_indices, get_group_counts, get_group_means, calculate_kw_h,
    kruskal_wallis, conover_iman).

    Modelling choices:
    - Python floats are modelled as exact rationals [Q]; ordinal values
      ([Collection[int]]) as [Z]; group labels as [string].
    - The instance is a record of optional attributes ([None] = attribute
      not set, so [hasattr] is [is_Some]).
    - A method call is a state/exception computation: Python does not roll
      back attribute assignments made before an exception, so the state
      after an error is returned together with the exception.
    - The scipy distribution functions are parameters of the development
      ([Section Scipy]).
    - [print] calls have no effect on the modelled state and are omitted. *)

From Stdlib Require Import QArith Qabs Qpower Lqa ZArith List Lia Permutation Sorted.
From stdpp Require Import base gmap strings list.
Import ListNotations.

Open Scope Z_scope.

(** ** Exceptions raised by the class *)

Inductive Exc :=
  | NoDataError        (* ValueError("No data provided") *)
  | SequencingError    (* ValueError("Must have rejected null hypothesis ...") *)
  | TypeError          (* len() of a generator *)
  | KeyError           (* missing dict key *)
  | AttributeError     (* attribute read before being set *)
  | ZeroDivisionError. (* Python [/] by zero *)

(** The two outcome strings assigned to [self.outcome]. *)
Inductive Outcome :=
  | Rejected      (* "Null hypothesis rejected" *)
  | NotRejected.  (* "Null hypothesis not rejected" *)

(** ** Generators

    [get_group_indices] builds, for each group, the generator expression
    [(i for i, value in enumerate(group_values) if value == group)].
    The iterable [enumerate(group_values)] is evaluated eagerly, but the
    condition reads the comprehension variable [group] through the closure
    cell shared by the whole dict comprehension; the generators are only
    iterated after the comprehension has finished, when the cell holds the
    last group of [self.groups]. A generator is represented by its source
    sequence and the value of that cell. *)
Record IdxGen := GenIdx { gen_source : list string; gen_cell : string }.

Fixpoint enum_filter (p : string -> bool) (i : nat) (l : list string)
  : list nat :=
  match l with
  | [] => []
  | v :: t => if p v then i :: enum_filter p (S i) t
              else enum_filter p (S i) t
  end.

(** The items a fresh generator yields. *)
Definition gen_items (g : IdxGen) : list nat :=
  enum_filter (fun v => String.eqb v (gen_cell g)) 0 (gen_source g).

(** [len(g)]: generators have no [__len__]. *)
Definition py_len_gen (g : IdxGen) : Exc + Z := inl TypeError.

(** [i in g] on a generator iterates it until [i] is found, consuming the
    items it passes; [rest] is what remains to be yielded. *)
Fixpoint gen_contains (i : nat) (rest : list nat) : bool * list nat :=
  match rest with
  | [] => (false, [])
  | x :: t => if Nat.eqb x i then (true, t) else gen_contains i t
  end.

(** One pair's entries of [self.conover_results]; the source keeps one
    list per column ("Ri", "Rj", "degrees of freedom", ...) and appends to
    every column once per pair, which is a list of rows read by column. *)
Record ConoverRecord := mkConoverRecord {
  cr_Ri : string; cr_Rj : string; cr_degf : Z; cr_t_value : Q;
  cr_critical_value : Q; cr_p_value : Q; cr_outcome : Outcome
}.

(** ** The instance state *)

Record State := mkState {
  st_data : option (list string * list Z);     (* self.data: groups, values *)
  st_groups : list string;                     (* self.groups (set with data) *)
  st_alpha : option Q;
  st_group_indices : option (gmap string IdxGen);
  st_value_ranks : option (list Q);
  st_group_counts : option (gmap string Z);
  st_group_means : option (gmap string Q);
  st_degf : option Z;
  st_h_value : option Q;
  st_critical_value : option Q;
  st_p_value : option Q;
  st_outcome : option Outcome;
  st_conover_results : option (list ConoverRecord)
}.

(** [OrdinalTest()]: [__init__] sets nothing. *)
Definition init_state : State :=
  mkState None [] None None None None None None None None None None None.

(** ** A state and exception monad for method bodies *)

Definition M (A : Type) : Type := State -> State * (Exc + A).

Definition ret {A} (a : A) : M A := fun s => (s, inr a).
Definition bind {A B} (m : M A) (k : A -> M B) : M B :=
  fun s => let (s', r) := m s in
           match r with inl e => (s', inl e) | inr a => k a s' end.
Definition raise {A} (e : Exc) : M A := fun s => (s, inl e).
Definition lift {A} (r : Exc + A) : M A := fun s => (s, r).
Definition get : M State := fun s => (s, inr s).
Definition modify (f : State -> State) : M unit := fun s => (f s, inr tt).

Notation "'let*' x ':=' m 'in' k" := (bind m (fun x => k))
  (at level 200, x name, m at level 100, k at level 200).

(** Error-monad bind on [Exc + A], for the pure helpers. *)
Definition ebind {A B} (r : Exc + A) (k : A -> Exc + B) : Exc + B :=
  match r with inl e => inl e | inr a => k a end.

Fixpoint emapM {A B} (f : A -> Exc + B) (l : list A) : Exc + list B :=
  match l with
  | [] => inr []
  | x :: t => ebind (f x) (fun y => ebind (emapM f t) (fun ys => inr (y :: ys)))
  end.

(** Python's [d[k]] on a dict. *)
Definition dict_get {V} (m : gmap string V) (k : string) : Exc + V :=
  match m !! k with Some v => inr v | None => inl KeyError end.

(** Python's true division [a / b]: raises on a zero divisor. *)
Definition py_div (a b : Q) : Exc + Q :=
  if Qeq_bool b 0 then inl ZeroDivisionError else inr (a / b)%Q.

(** Python's [sum] over numbers. *)
Definition qsum (l : list Q) : Q := fold_right Qplus 0%Q l.

Definition Q_of_nat (n : nat) : Q := inject_Z (Z.of_nat n).

(** ** get_ranks *)

(** [sorted(indexed_numbers, key=lambda x: x[1])]: Python's sort is
    stable, and so is this insertion sort (an element is placed before the
    first element whose key is not smaller). *)
Fixpoint insert_by_value (p : nat * Z) (l : list (nat * Z)) : list (nat * Z) :=
  match l with
  | [] => [p]
  | q :: t => if Z.leb p.2 q.2 then p :: q :: t else q :: insert_by_value p t
  end.

Fixpoint sort_by_value (l : list (nat * Z)) : list (nat * Z) :=
  match l with
  | [] => []
  | p :: t => insert_by_value p (sort_by_value t)
  end.

(** [list(enumerate(ordinal_values))] *)
Definition enumerate {A} (l : list A) : list (nat * A) :=
  combine (seq 0 (length l)) l.

(** The inner [while] loop: collects the original indices of the maximal
    run of pairs whose value equals [current_value]; returns them together
    with the pairs after the run. *)
Fixpoint take_run (current_value : Z) (l : list (nat * Z))
  : list nat * list (nat * Z) :=
  match l with
  | (idx, v) :: t =>
      if Z.eqb v current_value
      then let (same, rest) := take_run current_value t in (idx :: same, rest)
      else ([], l)
  | [] => ([], [])
  end.

(** [sum(range(a, b))] for [a <= b] naturals. *)
Definition sum_range (a b : nat) : nat := list_sum (seq a (b - a)%nat).

(** The outer [while] loop, over the unscanned suffix [l] of
    [sorted_pairs] starting at sorted position [i]; [ranks] is the dict
    [ranks]. Each pass consumes at least one pair, so [fuel = len(l)]
    suffices. *)
Fixpoint rank_loop (fuel : nat) (i : nat) (l : list (nat * Z))
    (ranks : gmap nat Q) : gmap nat Q :=
  match fuel with
  | O => ranks
  | S fuel' =>
      match l with
      | [] => ranks
      | (_, current_value) :: _ =>
          let (same_value_indices, rest) := take_run current_value l in
          let j := (i + length same_value_indices)%nat in
          let avg_rank := (Q_of_nat (sum_range (i + 1) (j + 1))
                           / Q_of_nat (length same_value_indices))%Q in
          let ranks' := foldl (fun m idx => <[idx := avg_rank]> m)
                              ranks same_value_indices in
          rank_loop fuel' j rest ranks'
      end
  end.

(** [[ranks[i] for i in range(len(ordinal_values))]] *)
Definition rank_list (ranks : gmap nat Q) (n : nat) : Exc + list Q :=
  emapM (fun i => match ranks !! i with Some r => inr r | None => inl KeyError end)
        (seq 0 n).

Definition ranks_of (ordinal_values : list Z) : Exc + list Q :=
  let sorted_pairs := sort_by_value (enumerate ordinal_values) in
  rank_list (rank_loop (length sorted_pairs) 0 sorted_pairs ∅)
            (length ordinal_values).

(** The method: [ordinal_values = self.data["values"]]. *)
Definition get_ranks : M (list Q) :=
  let* s := get in
  match st_data s with
  | None => raise AttributeError
  | Some (_, values) => lift (ranks_of values)
  end.


(** Attribute assignment [self.<field> = v]. *)
Definition set_data (v : option (list string * list Z)) (s : State) : State :=
  mkState v (st_groups s) (st_alpha s) (st_group_indices s) (st_value_ranks s) (st_group_counts s) (st_group_means s) (st_degf s) (st_h_value s) (st_critical_value s) (st_p_value s) (st_outcome s) (st_conover_results s).
Definition set_groups (v : list string) (s : State) : State :=
  mkState (st_data s) v (st_alpha s) (st_group_indices s) (st_value_ranks s) (st_group_counts s) (st_group_means s) (st_degf s) (st_h_value s) (st_critical_value s) (st_p_value s) (st_outcome s) (st_conover_results s).
Definition set_alpha (v : option Q) (s : State) : State :=
  mkState (st_data s) (st_groups s) v (st_group_indices s) (st_value_ranks s) (st_group_counts s) (st_group_means s) (st_degf s) (st_h_value s) (st_critical_value s) (st_p_value s) (st_outcome s) (st_conover_results s).
Definition set_group_indices (v : option (gmap string IdxGen)) (s : State) : State :=
  mkState (st_data s) (st_groups s) (st_alpha s) v (st_value_ranks s) (st_group_counts s) (st_group_means s) (st_degf s) (st_h_value s) (st_critical_value s) (st_p_value s) (st_outcome s) (st_conover_results s).
Definition set_value_ranks (v : option (list Q)) (s : State) : State :=
  mkState (st_data s) (st_groups s) (st_alpha s) (st_group_indices s) v (st_group_counts s) (st_group_means s) (st_degf s) (st_h_value s) (st_critical_value s) (st_p_value s) (st_outcome s) (st_conover_results s).
Definition set_group_counts (v : option (gmap string Z)) (s : State) : State :=
  mkState (st_data s) (st_groups s) (st_alpha s) (st_group_indices s) (st_value_ranks s) v (st_group_means s) (st_degf s) (st_h_value s) (st_critical_value s) (st_p_value s) (st_outcome s) (st_conover_results s).
Definition set_group_means (v : option (gmap string Q)) (s : State) : State :=
  mkState (st_data s) (st_groups s) (st_alpha s) (st_group_indices s) (st_value_ranks s) (st_group_counts s) v (st_degf s) (st_h_value s) (st_critical_value s) (st_p_value s) (st_outcome s) (st_conover_results s).
Definition set_degf (v : option Z) (s : State) : State :=
  mkState (st_data s) (st_groups s) (st_alpha s) (st_group_indices s) (st_value_ranks s) (st_group_counts s) (st_group_means s) v (st_h_value s) (st_critical_value s) (st_p_value s) (st_outcome s) (st_conover_results s).
Definition set_h_value (v : option Q) (s : State) : State :=
  mkState (st_data s) (st_groups s) (st_alpha s) (st_group_indices s) (st_value_ranks s) (st_group_counts s) (st_group_means s) (st_degf s) v (st_critical_value s) (st_p_value s) (st_outcome s) (st_conover_results s).
Definition set_critical_value (v : option Q) (s : State) : State :=
  mkState (st_data s) (st_groups s) (st_alpha s) (st_group_indices s) (st_value_ranks s) (st_group_counts s) (st_group_means s) (st_degf s) (st_h_value s) v (st_p_value s) (st_outcome s) (st_conover_results s).
Definition set_p_value (v : option Q) (s : State) : State :=
  mkState (st_data s) (st_groups s) (st_alpha s) (st_group_indices s) (st_value_ranks s) (st_group_counts s) (st_group_means s) (st_degf s) (st_h_value s) (st_critical_value s) v (st_outcome s) (st_conover_results s).
Definition set_outcome (v : option Outcome) (s : State) : State :=
  mkState (st_data s) (st_groups s) (st_alpha s) (st_group_indices s) (st_value_ranks s) (st_group_counts s) (st_group_means s) (st_degf s) (st_h_value s) (st_critical_value s) (st_p_value s) v (st_conover_results s).
Definition set_conover_results (v : option (list ConoverRecord)) (s : State) : State :=
  mkState (st_data s) (st_groups s) (st_alpha s) (st_group_indices s) (st_value_ranks s) (st_group_counts s) (st_group_means s) (st_degf s) (st_h_value s) (st_critical_value s) (st_p_value s) (st_outcome s) v.

(** ** add_data *)

(** [list(set(groups))]: the iteration order of a Python set of strings
    depends on string hashing, so [self.groups] is any duplicate-free
    listing of the labels; [set_order groups reg] says [reg] is one. *)
Definition set_order (groups reg : list string) : Prop :=
  NoDup reg /\ forall x, In x reg <-> In x groups.

(** [add_data(groups, values)], with [reg] the order of [list(set(groups))]. *)
Definition add_data (groups : list string) (values : list Z) (reg : list string)
    (s : State) : State :=
  set_groups reg (set_data (Some (groups, values)) s).

(** ** get_group_indices, get_group_counts, get_group_means *)

(** The dict comprehension over [self.groups]; every generator reads the
    comprehension cell, which ends holding the last group (stdpp's [last];
    with no group no generator is built and the default is never read). *)
Definition group_indices_of (group_values registry : list string)
  : gmap string IdxGen :=
  let cell := default EmptyString (last registry) in
  list_to_map (map (fun group => (group, GenIdx group_values cell)) registry).

Definition get_group_indices : M (gmap string IdxGen) :=
  let* s := get in
  match st_data s with
  | None => raise AttributeError
  | Some (group_values, _) => ret (group_indices_of group_values (st_groups s))
  end.

(** [{group: len(group_indices[group]) for group in self.groups}] *)
Definition get_group_counts (registry : list string)
    (group_indices : gmap string IdxGen) : Exc + gmap string Z :=
  ebind (emapM (fun group =>
           ebind (dict_get group_indices group) (fun g =>
           ebind (py_len_gen g) (fun n => inr (group, n)))) registry)
        (fun kvs => inr (list_to_map kvs)).

(** [[value for i, value in enumerate(value_ranks) if i in gen]], where
    [rest] is what the generator [gen] has still to yield. *)
Fixpoint filter_in_gen (rest : list nat) (l : list (nat * Q)) : list Q :=
  match l with
  | [] => []
  | (i, value) :: t =>
      let (found, rest') := gen_contains i rest in
      if found then value :: filter_in_gen rest' t else filter_in_gen rest' t
  end.

(** The list comprehension reads [group_indices[group]] once per element;
    every read returns the same generator object, so only the first can
    fail and the generator's progress is shared by all the tests. *)
Definition group_rank_values (group_indices : gmap string IdxGen) (group : string)
    (value_ranks : list Q) : Exc + list Q :=
  match enumerate value_ranks with
  | [] => inr []
  | l => ebind (dict_get group_indices group)
               (fun gen => inr (filter_in_gen (gen_items gen) l))
  end.

Definition get_group_means (registry : list string)
    (group_indices : gmap string IdxGen) (group_counts : gmap string Z)
    (value_ranks : list Q) : Exc + gmap string Q :=
  ebind (emapM (fun group =>
           ebind (group_rank_values group_indices group value_ranks) (fun vs =>
           ebind (dict_get group_counts group) (fun c =>
           ebind (py_div (qsum vs) (inject_Z c)) (fun m => inr (group, m)))))
         registry)
        (fun kvs => inr (list_to_map kvs)).

(** ** calculate_kw_h *)

Definition calculate_kw_h (registry : list string) (n_cases : Z)
    (group_means : gmap string Q) (group_counts : gmap string Z)
    (expected_rank variance : Q) : Exc + Q :=
  let a := (inject_Z (n_cases - 1) / 12)%Q in
  ebind (emapM (fun group =>
           ebind (dict_get group_counts group) (fun c =>
           ebind (dict_get group_means group) (fun m =>
           py_div (inject_Z c * ((m - expected_rank) ^ 2)) variance)))
         registry)
        (fun terms => inr (a * qsum terms)%Q).

(** Reading an attribute that may not have been set. *)
Definition attr {A} (o : option A) : Exc + A :=
  match o with Some a => inr a | None => inl AttributeError end.

(** [combinations(self.groups, 2)] in itertools order. *)
Fixpoint combinations2 {A} (l : list A) : list (A * A) :=
  match l with
  | [] => []
  | x :: t => map (fun y => (x, y)) t ++ combinations2 t
  end.

(** [sum([value**2 for value in self.data["values"]])] *)
Definition sum_squares (values : list Z) : Z :=
  fold_right Z.add 0 (map (fun v => v ^ 2) values).

Section Scipy.

(** [stats.chi2.ppf], [stats.chi2.cdf], [stats.t.ppf], [stats.t.cdf]:
    (probability or statistic, degrees of freedom) to a float. *)
Variable chi2_ppf chi2_cdf t_ppf t_cdf : Q -> Z -> Q.

(** ** kruskal_wallis *)

Definition kruskal_wallis (alpha : Q) : M unit :=
  let* s := get in
  match st_data s with
  | None => raise NoDataError
  | Some (_, values) =>
      let registry := st_groups s in
      let* _ := modify (set_alpha (Some alpha)) in
      let* group_indices := get_group_indices in
      let* _ := modify (set_group_indices (Some group_indices)) in
      let* value_ranks := get_ranks in
      let* _ := modify (set_value_ranks (Some value_ranks)) in
      let* group_counts := lift (get_group_counts registry group_indices) in
      let* _ := modify (set_group_counts (Some group_counts)) in
      let* group_means :=
        lift (get_group_means registry group_indices group_counts value_ranks) in
      let* _ := modify (set_group_means (Some group_means)) in
      let n_cases := Z.of_nat (length values) in
      let expected_rank := (inject_Z (n_cases + 1) / 2)%Q in
      let variance := (inject_Z (n_cases ^ 2 - 1) / 12)%Q in
      let degf := Z.of_nat (length registry) - 1 in
      let* _ := modify (set_degf (Some degf)) in
      let* h_value := lift (calculate_kw_h registry n_cases group_means
                              group_counts expected_rank variance) in
      let* _ := modify (set_h_value (Some h_value)) in
      let critical_value := chi2_ppf (1 - alpha) degf in
      let* _ := modify (set_critical_value (Some critical_value)) in
      let* _ := modify (set_p_value (Some (1 - chi2_cdf h_value degf)%Q)) in
      let outcome := if Qle_bool critical_value h_value
                     then Rejected else NotRejected in
      modify (set_outcome (Some outcome))
  end.

(** ** conover_iman *)

(** The guard at the top of [conover_iman]. *)
Definition conover_check (s : State) : Exc + unit :=
  match st_h_value s with
  | None => inl SequencingError
  | Some _ =>
      match st_outcome s with
      | None => inl AttributeError
      | Some NotRejected => inl SequencingError
      | Some Rejected => inr tt
      end
  end.

(** [R = sum([value**2 for value in self.data["values"]])] *)
Definition conover_R (s : State) : Exc + Z :=
  ebind (attr (st_data s)) (fun d => inr (sum_squares d.2)).

(** The body of the [for Ri, Rj in ...] loop, up to the appends. *)
Definition conover_pair (s : State) (k R : Z) (Ri Rj : string)
  : Exc + ConoverRecord :=
  ebind (attr (st_group_indices s)) (fun gi =>
  ebind (ebind (dict_get gi Ri) py_len_gen) (fun n_i =>
  ebind (ebind (dict_get gi Rj) py_len_gen) (fun n_j =>
  let n := n_i + n_j in
  ebind (attr (st_group_means s)) (fun means =>
  ebind (dict_get means Ri) (fun m_i =>
  ebind (dict_get means Rj) (fun m_j =>
  let diff := Qabs (m_i - m_j) in
  ebind (py_div 1 (inject_Z (n - 1))) (fun inv =>
  let s2 := (inv * (inject_Z R - inject_Z (n * (n + 1) ^ 2) / 4))%Q in
  ebind (attr (st_h_value s)) (fun h =>
  ebind (py_div (inject_Z (n - 1) - h) (inject_Z (n - k))) (fun f =>
  ebind (py_div 1 (inject_Z n_i)) (fun inv_i =>
  ebind (py_div 1 (inject_Z n_j)) (fun inv_j =>
  let se := (s2 * f * (inv_i + inv_j))%Q in
  ebind (py_div diff se) (fun t_value =>
  let degf := n - k in
  ebind (attr (st_alpha s)) (fun alpha =>
  let critical_value := t_ppf (1 - alpha) degf in
  let p_value := (1 - t_cdf t_value degf)%Q in
  let outcome := if Qle_bool critical_value t_value
                 then Rejected else NotRejected in
  inr (mkConoverRecord Ri Rj degf t_value critical_value p_value outcome)
  ))))))))))))).

(** The loop; each pair's entries are appended to [self.conover_results]
    in place, so the pairs done before an exception stay recorded. *)
Fixpoint conover_loop (k R : Z) (pairs : list (string * string)) : M unit :=
  match pairs with
  | [] => ret tt
  | (Ri, Rj) :: t =>
      let* s := get in
      let* record := lift (conover_pair s k R Ri Rj) in
      let* _ := modify (fun s' =>
                  set_conover_results
                    (Some (default [] (st_conover_results s') ++ [record])) s') in
      conover_loop k R t
  end.

Definition conover_iman : M unit :=
  let* s := get in
  let* _ := lift (conover_check s) in
  let registry := st_groups s in
  let k := Z.of_nat (length registry) in
  let* R := lift (conover_R s) in
  let* _ := modify (set_conover_results (Some [])) in
  conover_loop k R (combinations2 registry).

(** ** The states an instance can reach

    Python keeps an instance usable after a method raised, so every call,
    whatever its result, leads to a reachable state. *)
Inductive reachable : State -> Prop :=
  | reach_init : reachable init_state
  | reach_add_data s groups values reg :
      reachable s -> set_order groups reg ->
      reachable (add_data groups values reg s)
  | reach_kruskal_wallis s alpha s' r :
      reachable s -> kruskal_wallis alpha s = (s', r) -> reachable s'
  | reach_conover_iman s s' r :
      reachable s -> conover_iman s = (s', r) -> reachable s'.

End Scipy.

(** * Proofs *)

(** ** The rank engine *)

Module Ranks.

(** The assignments [ranks[idx] = avg_rank] made by [rank_loop], in order. *)
Fixpoint rank_assigns (fuel : nat) (i : nat) (l : list (nat * Z))
  : list (nat * Q) :=
  match fuel with
  | O => []
  | S fuel' =>
      match l with
      | [] => []
      | (_, current_value) :: _ =>
          let (same_value_indices, rest) := take_run current_value l in
          let j := (i + length same_value_indices)%nat in
          let avg_rank := (Q_of_nat (sum_range (i + 1) (j + 1))
                           / Q_of_nat (length same_value_indices))%Q in
          map (fun idx => (idx, avg_rank)) same_value_indices
            ++ rank_assigns fuel' j rest
      end
  end.

Definition ins (m : gmap nat Q) (kq : nat * Q) : gmap nat Q := <[kq.1 := kq.2]> m.

Lemma insert_by_value_perm p l : Permutation (insert_by_value p l) (p :: l).
Proof.
  induction l as [|q t IH]; simpl; [reflexivity|].
  destruct (Z.leb p.2 q.2); [reflexivity|].
  rewrite IH. apply perm_swap.
Qed.

Lemma sort_by_value_perm l : Permutation (sort_by_value l) l.
Proof.
  induction l as [|p t IH]; simpl; [reflexivity|].
  rewrite insert_by_value_perm, IH. reflexivity.
Qed.

Lemma enumerate_fst_from {A} (s : nat) (l : list A) :
  map fst (combine (seq s (length l)) l) = seq s (length l).
Proof.
  revert s. induction l as [|x t IH]; intros s; simpl; [reflexivity|].
  f_equal. apply IH.
Qed.

Lemma enumerate_fst {A} (l : list A) : map fst (enumerate l) = seq 0 (length l).
Proof. apply enumerate_fst_from. Qed.

Lemma take_run_fst c l same rest :
  take_run c l = (same, rest) -> map fst l = same ++ map fst rest.
Proof.
  revert same rest. induction l as [|[idx v] t IH]; intros same rest H; simpl in *.
  - injection H as <- <-. reflexivity.
  - destruct (Z.eqb v c).
    + destruct (take_run c t) as [s r] eqn:E. injection H as <- <-.
      simpl. f_equal. apply IH. reflexivity.
    + injection H as <- <-. reflexivity.
Qed.

Lemma take_run_head idx c t same rest :
  take_run c ((idx, c) :: t) = (same, rest) -> same <> [].
Proof.
  simpl. rewrite Z.eqb_refl. destruct (take_run c t).
  intros H. injection H as <- <-. discriminate.
Qed.

Lemma take_run_length c l same rest :
  take_run c l = (same, rest) -> length l = (length same + length rest)%nat.
Proof.
  intros H. apply take_run_fst in H.
  rewrite <- (length_map fst l), H, length_app, length_map. reflexivity.
Qed.

Lemma foldl_ins_map (avg : Q) (same : list nat) m :
  foldl (fun m idx => <[idx := avg]> m) m same
  = foldl ins m (map (fun idx => (idx, avg)) same).
Proof.
  revert m. induction same as [|x t IH]; intros m; simpl; [reflexivity|].
  apply IH.
Qed.

Lemma rank_loop_assigns fuel i l m :
  rank_loop fuel i l m = foldl ins m (rank_assigns fuel i l).
Proof.
  revert i l m. induction fuel as [|fuel IH]; intros i l m; simpl; [reflexivity|].
  destruct l as [|[idx c] t]; [reflexivity|].
  destruct (take_run c ((idx, c) :: t)) as [same rest].
  rewrite IH, foldl_app, foldl_ins_map. reflexivity.
Qed.

Lemma rank_assigns_fst fuel i l :
  (length l <= fuel)%nat -> map fst (rank_assigns fuel i l) = map fst l.
Proof.
  revert i l. induction fuel as [|fuel IH]; intros i l Hf.
  - destruct l; [reflexivity | simpl in Hf; lia].
  - destruct l as [|[idx c] t]; [reflexivity|]. cbn [rank_assigns].
    destruct (take_run c ((idx, c) :: t)) as [same rest] eqn:E.
    pose proof (take_run_head _ _ _ _ _ E) as Hne.
    pose proof (take_run_length _ _ _ _ E) as Hl.
    rewrite map_app, map_map, (take_run_fst _ _ _ _ E). cbn [fst].
    rewrite map_id, IH; [reflexivity|].
    destruct same; [congruence|]. simpl in *. lia.
Qed.

Lemma qsum_app l1 l2 : (qsum (l1 ++ l2) == qsum l1 + qsum l2)%Q.
Proof.
  induction l1 as [|x t IH]; simpl; [ring|].
  rewrite IH. ring.
Qed.

Lemma qsum_const {A} (c : Q) (l : list A) :
  (qsum (map (fun _ => c) l) == Q_of_nat (length l) * c)%Q.
Proof.
  induction l as [|x t IH]; simpl.
  - unfold Q_of_nat. simpl. ring.
  - rewrite IH. unfold Q_of_nat. rewrite Nat2Z.inj_succ, <- Z.add_1_r,
      inject_Z_plus. ring.
Qed.

Lemma qsum_perm l l' : Permutation l l' -> (qsum l == qsum l')%Q.
Proof.
  induction 1 as [| x l l' _ IH | x y l | l l' l'' _ IH1 _ IH2]; simpl.
  - reflexivity.
  - rewrite IH. reflexivity.
  - ring.
  - rewrite IH1. exact IH2.
Qed.

Lemma Q_of_nat_add a b : (Q_of_nat (a + b) == Q_of_nat a + Q_of_nat b)%Q.
Proof. unfold Q_of_nat. rewrite Nat2Z.inj_add, inject_Z_plus. reflexivity. Qed.

Lemma Q_of_nat_mul a b : (Q_of_nat (a * b) == Q_of_nat a * Q_of_nat b)%Q.
Proof. unfold Q_of_nat. rewrite Nat2Z.inj_mul, inject_Z_mult. reflexivity. Qed.

Lemma Q_of_nat_nonzero a : a <> O -> ~ (Q_of_nat a == 0)%Q.
Proof.
  intros Ha H. unfold Q_of_nat, inject_Z, Qeq in H. simpl in H. lia.
Qed.

Lemma sum_range_split a x y :
  (sum_range a (a + x) + sum_range (a + x) (a + x + y) = sum_range a (a + x + y))%nat.
Proof.
  unfold sum_range.
  replace (a + x - a)%nat with x by lia.
  replace (a + x + y - (a + x))%nat with y by lia.
  replace (a + x + y - a)%nat with (x + y)%nat by lia.
  rewrite seq_app, list_sum_app. reflexivity.
Qed.

Lemma sum_range_gauss n : (2 * sum_range 1 (n + 1) = n * (n + 1))%nat.
Proof.
  unfold sum_range. replace (n + 1 - 1)%nat with n by lia.
  induction n as [|n IH]; [reflexivity|].
  rewrite seq_S, list_sum_app. simpl list_sum at 2. nia.
Qed.

Lemma rank_assigns_sum fuel i l :
  (length l <= fuel)%nat ->
  (qsum (map snd (rank_assigns fuel i l))
   == Q_of_nat (sum_range (i + 1) (i + length l + 1)))%Q.
Proof.
  revert i l. induction fuel as [|fuel IH]; intros i l Hf.
  - destruct l; [|simpl in Hf; lia].
    simpl. unfold sum_range. replace (i + 0 + 1 - (i + 1))%nat with O by lia.
    reflexivity.
  - destruct l as [|[idx c] t].
    + simpl. unfold sum_range. replace (i + 0 + 1 - (i + 1))%nat with O by lia.
      reflexivity.
    + cbn [rank_assigns].
      destruct (take_run c ((idx, c) :: t)) as [same rest] eqn:E.
      pose proof (take_run_head _ _ _ _ _ E) as Hne.
      pose proof (take_run_length _ _ _ _ E) as Hl.
      assert (HL : length same <> O) by (destruct same; [congruence | discriminate]).
      rewrite map_app, map_map, qsum_app. cbn [snd].
      rewrite qsum_const, IH by lia.
      set (L := length same) in *.
      set (S0 := sum_range (i + 1) (i + L + 1)).
      set (S1 := sum_range (i + L + 1) (i + L + length rest + 1)).
      assert (Hsplit : (S0 + S1)%nat = sum_range (i + 1) (i + length ((idx, c) :: t) + 1)).
      { unfold S0, S1. rewrite Hl.
        replace (i + L + 1)%nat with (i + 1 + L)%nat by lia.
        replace (i + (L + length rest) + 1)%nat with (i + 1 + L + length rest)%nat by lia.
        replace (i + L + length rest + 1)%nat with (i + 1 + L + length rest)%nat by lia.
        apply sum_range_split. }
      rewrite <- Hsplit, Q_of_nat_add.
      replace (i + 1 + L)%nat with (i + L + 1)%nat by lia.
      fold S0. field. apply Q_of_nat_nonzero. exact HL.
Qed.

Lemma foldl_ins_notin (A : list (nat * Q)) m k :
  ~ In k (map fst A) -> foldl ins m A !! k = m !! k.
Proof.
  revert m. induction A as [|[k' q'] t IH]; intros m Hk; simpl in *; [reflexivity|].
  rewrite IH by tauto. unfold ins. simpl.
  apply lookup_insert_ne. intros ->. tauto.
Qed.

Lemma foldl_ins_in (A : list (nat * Q)) m k q :
  List.NoDup (map fst A) -> In (k, q) A -> foldl ins m A !! k = Some q.
Proof.
  revert m. induction A as [|[k' q'] t IH]; intros m Hnd Hin; simpl in *; [tauto|].
  apply NoDup_cons_iff in Hnd as [Hk' Hnd].
  destruct Hin as [Heq | Hin].
  - injection Heq as -> ->. rewrite foldl_ins_notin by exact Hk'.
    unfold ins. simpl. apply lookup_insert_eq.
  - apply IH; assumption.
Qed.

Lemma emapM_ok {A B} (f : A -> Exc + B) (h : A -> B) l :
  (forall x, In x l -> f x = inr (h x)) -> emapM f l = inr (map h l).
Proof.
  induction l as [|x t IH]; intros Hf; simpl; [reflexivity|].
  rewrite Hf by (left; reflexivity). simpl.
  rewrite IH by (intros y Hy; apply Hf; right; exact Hy). reflexivity.
Qed.

Lemma length_enumerate {A} (l : list A) : length (enumerate l) = length l.
Proof. unfold enumerate. rewrite length_combine, length_seq. lia. Qed.

(** [get_ranks] never fails, and its ranks sum to N(N+1)/2. *)
Lemma ranks_of_sum (values : list Z) :
  exists rs, ranks_of values = inr rs /\ length rs = length values /\
    (qsum rs == Q_of_nat (length values * (length values + 1))%nat / 2)%Q.
Proof.
  unfold ranks_of.
  set (n := length values).
  set (sp := sort_by_value (enumerate values)).
  assert (Hperm : Permutation sp (enumerate values)) by apply sort_by_value_perm.
  assert (Hlen : length sp = n).
  { rewrite (Permutation_length Hperm). apply length_enumerate. }
  set (A := rank_assigns (length sp) 0 sp).
  assert (HA : map fst A = map fst sp) by (apply rank_assigns_fst; lia).
  assert (Hkeys : Permutation (map fst A) (seq 0 n)).
  { rewrite HA. unfold n. rewrite <- (enumerate_fst values).
    apply Permutation_map. exact Hperm. }
  assert (Hnd : List.NoDup (map fst A)).
  { eapply Permutation_NoDup; [symmetry; exact Hkeys | apply seq_NoDup]. }
  rewrite rank_loop_assigns. fold A.
  set (m := foldl ins ∅ A).
  set (g := fun k => default 0%Q (m !! k)).
  assert (Hg : forall p, In p A -> g p.1 = p.2).
  { intros [k q] Hp. unfold g, m. simpl. erewrite foldl_ins_in; eauto. }
  exists (map g (seq 0 n)). split; [|split].
  - unfold rank_list. apply emapM_ok. intros k Hk.
    apply (Permutation_in _ (Permutation_sym Hkeys)) in Hk.
    apply in_map_iff in Hk as [[k' q] [Hk Hin]]. simpl in Hk. subst k'.
    pose proof (Hg _ Hin) as Hgk. simpl in Hgk. rewrite Hgk.
    unfold m. erewrite foldl_ins_in; eauto.
  - rewrite length_map, length_seq. reflexivity.
  - rewrite <- (qsum_perm _ _ (Permutation_map g Hkeys)).
    rewrite map_map, (map_ext_in _ snd A Hg).
    unfold A. rewrite rank_assigns_sum by lia. rewrite Hlen.
    replace (0 + n + 1)%nat with (n + 1)%nat by lia.
    rewrite <- sum_range_gauss, Q_of_nat_mul.
    replace (0 + 1)%nat with 1%nat by lia.
    change (Q_of_nat 2) with (inject_Z 2). field.
Qed.

End Ranks.

(** ** Which exceptions the helpers can raise

    A [benign] result never carries one of the two enforced errors
    ([NoDataError], [SequencingError]). *)

Module Errors.

Definition benign {A} (r : Exc + A) : Prop :=
  forall e, r = inl e -> e <> NoDataError /\ e <> SequencingError.

Lemma benign_inr {A} (a : A) : benign (inr a).
Proof. intros e H. discriminate. Qed.

Lemma benign_ebind {A B} (r : Exc + A) (k : A -> Exc + B) :
  benign r -> (forall a, benign (k a)) -> benign (ebind r k).
Proof.
  intros Hr Hk. destruct r as [e|a]; simpl; [|apply Hk].
  intros e' H. injection H as <-. apply Hr. reflexivity.
Qed.

Lemma benign_dict_get {V} (m : gmap string V) k : benign (dict_get m k).
Proof. unfold dict_get. destruct (m !! k); intros e H; [discriminate|].
  injection H as <-. split; discriminate. Qed.

Lemma benign_py_div a b : benign (py_div a b).
Proof. unfold py_div. destruct (Qeq_bool b 0); intros e H; [|discriminate].
  injection H as <-. split; discriminate. Qed.

Lemma benign_py_len g : benign (py_len_gen g).
Proof. intros e H. injection H as <-. split; discriminate. Qed.

Lemma benign_attr {A} (o : option A) : benign (attr o).
Proof. unfold attr. destruct o; intros e H; [discriminate|].
  injection H as <-. split; discriminate. Qed.

Lemma benign_emapM {A B} (f : A -> Exc + B) l :
  (forall x, benign (f x)) -> benign (emapM f l).
Proof.
  intros Hf. induction l as [|x t IH]; simpl; [apply benign_inr|].
  apply benign_ebind; [apply Hf|]. intros y.
  apply benign_ebind; [exact IH|]. intros ys. apply benign_inr.
Qed.

Lemma benign_reraise {A B} (x : Exc + A) e :
  x = inl e -> benign x -> benign (@inl Exc B e).
Proof.
  intros -> H e' He. injection He as <-. apply H. reflexivity.
Qed.

Create HintDb benign.
#[export] Hint Resolve benign_inr benign_ebind benign_dict_get benign_py_div
  benign_py_len benign_attr benign_emapM : benign.

Ltac benign_auto :=
  repeat (intros || apply benign_ebind || apply benign_emapM || eauto with benign).

Lemma benign_get_group_counts reg gi : benign (get_group_counts reg gi).
Proof. unfold get_group_counts. benign_auto. Qed.

Lemma benign_group_rank_values gi g vr : benign (group_rank_values gi g vr).
Proof. unfold group_rank_values. destruct (enumerate vr); benign_auto. Qed.

Lemma benign_get_group_means reg gi gc vr : benign (get_group_means reg gi gc vr).
Proof.
  unfold get_group_means. apply benign_ebind; [|benign_auto].
  apply benign_emapM. intros g. apply benign_ebind;
    [apply benign_group_rank_values | benign_auto].
Qed.

Lemma benign_calculate_kw_h reg n gm gc e v : benign (calculate_kw_h reg n gm gc e v).
Proof. unfold calculate_kw_h. benign_auto. Qed.

Lemma benign_conover_pair tp tc s k R Ri Rj : benign (conover_pair tp tc s k R Ri Rj).
Proof. unfold conover_pair. benign_auto. Qed.

Lemma benign_ranks_of vs : benign (ranks_of vs).
Proof.
  destruct (Ranks.ranks_of_sum vs) as [rs [H _]]. rewrite H. apply benign_inr.
Qed.

Lemma benign_conover_R s : benign (conover_R s).
Proof. unfold conover_R. benign_auto. Qed.

End Errors.

(** ** What the two evaluator methods change *)

Module Methods.

Ltac split_sums H :=
  repeat match type of H with
  | context [match ?x with inl _ => _ | inr _ => _ end] =>
      let E := fresh "E" in destruct x eqn:E
  end.

Ltac unfold_state :=
  cbn [set_data set_groups set_alpha set_group_indices set_value_ranks
       set_group_counts set_group_means set_degf set_h_value set_critical_value
       set_p_value set_outcome set_conover_results
       st_data st_groups st_alpha st_group_indices st_value_ranks
       st_group_counts st_group_means st_degf st_h_value st_critical_value
       st_p_value st_outcome st_conover_results].

Ltac unfold_state_in H :=
  cbn [set_data set_groups set_alpha set_group_indices set_value_ranks
       set_group_counts set_group_means set_degf set_h_value set_critical_value
       set_p_value set_outcome set_conover_results
       st_data st_groups st_alpha st_group_indices st_value_ranks
       st_group_counts st_group_means st_degf st_h_value st_critical_value
       st_p_value st_outcome st_conover_results] in H.

Lemma kw_cases p c alpha s s' r :
  kruskal_wallis p c alpha s = (s', r) ->
  (st_data s = None /\ s' = s /\ r = inl NoDataError) \/
  (st_data s <> None /\ Errors.benign r /\ st_data s' = st_data s /\
   st_groups s' = st_groups s /\ st_conover_results s' = st_conover_results s /\
   ((st_h_value s' = st_h_value s /\ st_outcome s' = st_outcome s) \/
    (exists h o, st_h_value s' = Some h /\ st_outcome s' = Some o))).
Proof.
  intros H.
  unfold kruskal_wallis, bind, get, modify, lift, ret, raise,
    get_group_indices, get_ranks in H.
  unfold bind, get, lift, ret, raise in H. cbv beta iota zeta in H.
  unfold_state_in H.
  destruct (st_data s) as [[gs vs]|] eqn:Hd.
  2: { left. injection H as <- <-. auto. }
  right. split; [discriminate|].
  repeat first [ rewrite Hd in H | progress cbv beta iota zeta in H
               | progress unfold_state_in H ].
  split_sums H; injection H as <- <-; unfold_state.
  all: split; [ match goal with
    | E : _ = inl ?e |- Errors.benign (inl ?e) =>
        apply (Errors.benign_reraise _ _ E); first [ apply Errors.benign_ranks_of
                            | apply Errors.benign_get_group_counts
                            | apply Errors.benign_get_group_means
                            | apply Errors.benign_calculate_kw_h ]
    | |- Errors.benign (inr _) => apply Errors.benign_inr
    end | ].
  all: split; [exact Hd|]; split; [reflexivity|]; split; [reflexivity|].
  all: first [ left; split; reflexivity | right; eauto ].
Qed.

Lemma set_conover_results_self s : set_conover_results (st_conover_results s) s = s.
Proof. destruct s. reflexivity. Qed.

Lemma set_conover_results_twice X Y s :
  set_conover_results X (set_conover_results Y s) = set_conover_results X s.
Proof. reflexivity. Qed.

Lemma conover_loop_cases tp tc k R pairs s s' r :
  conover_loop tp tc k R pairs s = (s', r) ->
  Errors.benign r /\ exists X, s' = set_conover_results X s.
Proof.
  revert s. induction pairs as [|[Ri Rj] t IH]; intros s H; simpl in H.
  - injection H as <- <-. split; [apply Errors.benign_inr|].
    exists (st_conover_results s). symmetry. apply set_conover_results_self.
  - unfold bind, get, lift, modify in H.
    destruct (conover_pair tp tc s k R Ri Rj) as [e|record] eqn:E.
    + injection H as <- <-. split.
      * apply (Errors.benign_reraise _ _ E), Errors.benign_conover_pair.
      * exists (st_conover_results s). symmetry. apply set_conover_results_self.
    + apply IH in H as [Hr [X ->]]. split; [exact Hr|].
      eexists. apply set_conover_results_twice.
Qed.

Lemma conover_check_fail tp tc s e :
  conover_check s = inl e -> conover_iman tp tc s = (s, inl e).
Proof.
  intros H. unfold conover_iman, bind, get, lift. rewrite H. reflexivity.
Qed.

Lemma ci_cases tp tc s s' r :
  conover_iman tp tc s = (s', r) ->
  (exists e, conover_check s = inl e /\ s' = s /\ r = inl e) \/
  (conover_check s = inr tt /\ Errors.benign r /\
   exists X, s' = set_conover_results X s).
Proof.
  intros H. destruct (conover_check s) as [e|[]] eqn:Ec.
  - left. exists e. rewrite (conover_check_fail tp tc _ _ Ec) in H.
    injection H as <- <-. auto.
  - right. split; [reflexivity|].
    unfold conover_iman, bind, get, lift, modify in H. rewrite Ec in H.
    destruct (conover_R s) as [e|R] eqn:ER.
    + injection H as <- <-. split.
      * apply (Errors.benign_reraise _ _ ER), Errors.benign_conover_R.
      * exists (st_conover_results s). symmetry. apply set_conover_results_self.
    + apply conover_loop_cases in H as [Hr [X ->]]. split; [exact Hr|].
      eexists. apply set_conover_results_twice.
Qed.

(** In every reachable state [h_value] and [outcome] are set together. *)
Lemma reachable_consistent p c tp tc s :
  reachable p c tp tc s -> (st_h_value s = None <-> st_outcome s = None).
Proof.
  induction 1 as [| s groups values reg _ IH _
                  | s alpha s' r _ IH Hkw | s s' r _ IH Hci].
  - split; reflexivity.
  - exact IH.
  - apply kw_cases in Hkw as [[_ [-> _]] | [_ [_ [_ [_ [_ [[-> ->] | [h [o [-> ->]]]]]]]]]].
    + exact IH.
    + exact IH.
    + split; discriminate.
  - apply ci_cases in Hci as [[e [_ [-> _]]] | [_ [_ [X ->]]]].
    + exact IH.
    + exact IH.
Qed.

End Methods.

(** ** kruskal_wallis on a non-empty group registry *)

Module Pipeline.

Lemma list_to_map_const_lookup (v : IdxGen) (l : list string) g :
  In g l -> (list_to_map (map (fun x => (x, v)) l) : gmap string IdxGen) !! g = Some v.
Proof.
  induction l as [|x t IH]; intros Hin; simpl in *; [tauto|].
  destruct (decide (x = g)) as [->|Hne].
  - apply lookup_insert_eq.
  - rewrite lookup_insert_ne by exact Hne. apply IH. destruct Hin; [congruence|assumption].
Qed.

Lemma group_indices_lookup gv reg g :
  In g reg -> group_indices_of gv reg !! g = Some (GenIdx gv (default EmptyString (last reg))).
Proof. intros H. unfold group_indices_of. apply list_to_map_const_lookup, H. Qed.

(** [get_group_counts] raises [TypeError] on the first group. *)
Lemma get_group_counts_type_error gv g reg' :
  get_group_counts (g :: reg') (group_indices_of gv (g :: reg')) = inl TypeError.
Proof.
  unfold get_group_counts. simpl emapM. unfold dict_get.
  rewrite group_indices_lookup by (left; reflexivity). reflexivity.
Qed.

(** Once data is stored and the registry is non-empty, [kruskal_wallis]
    sets [alpha], [group_indices] and [value_ranks] and then raises
    [TypeError] from [get_group_counts]. *)
Lemma kw_type_error p c alpha s gs vs :
  st_data s = Some (gs, vs) -> st_groups s <> [] ->
  exists rs,
    kruskal_wallis p c alpha s =
      (set_value_ranks (Some rs)
         (set_group_indices (Some (group_indices_of gs (st_groups s)))
            (set_alpha (Some alpha) s)),
       inl TypeError).
Proof.
  intros Hd Hg. destruct (st_groups s) as [|g reg'] eqn:Hreg; [congruence|].
  destruct (Ranks.ranks_of_sum vs) as [rs [Hr _]]. exists rs.
  unfold kruskal_wallis, bind, get, modify, lift, ret, raise,
    get_group_indices, get_ranks.
  unfold bind, get, lift, ret, raise.
  repeat first [ rewrite Hd | rewrite Hreg | rewrite Hr
               | rewrite get_group_counts_type_error
               | progress cbv beta iota zeta | progress Methods.unfold_state ].
  reflexivity.
Qed.

(** Even when its guard passes, [conover_iman] raises [TypeError] at the
    first pair if the stored group indices are those [get_group_indices]
    builds: [len] of a generator. *)
Lemma conover_type_error tp tc s gs vs Ri Rj reg' :
  conover_check s = inr tt -> st_data s = Some (gs, vs) ->
  st_groups s = Ri :: Rj :: reg' ->
  st_group_indices s = Some (group_indices_of gs (st_groups s)) ->
  snd (conover_iman tp tc s) = inl TypeError.
Proof.
  intros Hc Hd Hreg Hgi.
  unfold conover_iman, bind, get, lift, modify. rewrite Hc.
  unfold conover_R. rewrite Hd. cbv beta iota zeta. simpl ebind.
  rewrite Hreg. simpl combinations2. simpl conover_loop.
  unfold bind, get, lift, modify, conover_pair. Methods.unfold_state.
  rewrite Hgi, Hreg. simpl ebind. unfold dict_get.
  rewrite group_indices_lookup by (left; reflexivity). reflexivity.
Qed.

End Pipeline.

Lemma set_order_nonempty g gs reg : set_order (g :: gs) reg -> reg <> [].
Proof. intros [_ H] ->. specialize (H g). simpl in H. tauto. Qed.

Ltac set_order_tac :=
  split; [apply (bool_decide_unpack _); vm_compute; reflexivity
         | intros x; simpl; tauto].

(** ** The midrank formula of get_ranks *)

Module RankOrder.

Import Ranks.

Definition cnt {A} (f : A -> bool) (l : list A) : nat := length (List.filter f l).

(** The number of values strictly below [v], and equal to [v]. *)
Definition count_lt (v : Z) (values : list Z) : nat := cnt (fun w => Z.ltb w v) values.
Definition count_eq (v : Z) (values : list Z) : nat := cnt (fun w => Z.eqb w v) values.

Definition le_val (p q : nat * Z) : Prop := p.2 <= q.2.

Lemma cnt_app {A} (f : A -> bool) l1 l2 : cnt f (l1 ++ l2) = (cnt f l1 + cnt f l2)%nat.
Proof. unfold cnt. rewrite List.filter_app, length_app. reflexivity. Qed.

Lemma cnt_perm {A} (f : A -> bool) l l' : Permutation l l' -> cnt f l = cnt f l'.
Proof.
  unfold cnt. induction 1 as [| x l l' _ IH | x y l | l l' l'' _ IH1 _ IH2]; simpl.
  - reflexivity.
  - destruct (f x); simpl; congruence.
  - destruct (f x), (f y); reflexivity.
  - congruence.
Qed.

Lemma cnt_map {A B} (f : B -> bool) (h : A -> B) l :
  cnt f (map h l) = cnt (fun x => f (h x)) l.
Proof.
  unfold cnt. induction l as [|x t IH]; simpl; [reflexivity|].
  destruct (f (h x)); simpl; congruence.
Qed.

Lemma cnt_const {A} (f : A -> bool) (P : A -> Prop) l b :
  Forall P l -> (forall x, P x -> f x = b) ->
  cnt f l = if b then length l else O.
Proof.
  unfold cnt. intros Hl Hf. induction Hl as [|x t Hx _ IH]; simpl.
  - destruct b; reflexivity.
  - rewrite (Hf x Hx). destruct b; simpl; congruence.
Qed.

Lemma enumerate_snd_from {A} (s : nat) (l : list A) :
  map snd (combine (seq s (length l)) l) = l.
Proof.
  revert s. induction l as [|x t IH]; intros s; simpl; [reflexivity|].
  f_equal. apply IH.
Qed.

Lemma enumerate_nth_from {A} (s : nat) (l : list A) k v :
  nth_error l k = Some v -> In ((s + k)%nat, v) (combine (seq s (length l)) l).
Proof.
  revert s k. induction l as [|x t IH]; intros s k H; [destruct k; discriminate|].
  destruct k as [|k]; simpl in H |- *.
  - injection H as ->. left. f_equal. lia.
  - right. replace (s + S k)%nat with (S s + k)%nat by lia. apply IH, H.
Qed.

Lemma insert_by_value_sorted p l :
  StronglySorted le_val l -> StronglySorted le_val (insert_by_value p l).
Proof.
  unfold le_val. induction l as [|q t IH]; intros Hs; simpl.
  - repeat constructor.
  - inversion Hs as [|? ? Ht Hq]; subst.
    destruct (Z.leb p.2 q.2) eqn:E.
    + apply Z.leb_le in E. constructor; [exact Hs|].
      constructor; [exact E|].
      eapply Forall_impl; [exact Hq|]. intros x Hx. simpl in Hx. lia.
    + apply Z.leb_gt in E. constructor; [apply IH, Ht|].
      apply List.Forall_forall. intros x Hx.
      apply (Permutation_in _ (insert_by_value_perm p t)) in Hx as [<-|Hx].
      * simpl. lia.
      * rewrite List.Forall_forall in Hq. apply Hq, Hx.
Qed.

Lemma sort_by_value_sorted l : StronglySorted le_val (sort_by_value l).
Proof.
  induction l as [|p t IH]; simpl; [constructor|].
  apply insert_by_value_sorted, IH.
Qed.

Lemma take_run_split c l same rest :
  take_run c l = (same, rest) ->
  exists pre, l = pre ++ rest /\ map fst pre = same /\
    Forall (fun p => p.2 = c) pre /\
    (forall p t', rest = p :: t' -> p.2 <> c).
Proof.
  revert same rest. induction l as [|[idx v] t IH]; intros same rest H; simpl in H.
  - injection H as <- <-. exists []. repeat split; [constructor|discriminate].
  - destruct (Z.eqb v c) eqn:E.
    + destruct (take_run c t) as [s r] eqn:Et. injection H as <- <-.
      destruct (IH s r eq_refl) as [pre [-> [Hf [Hc Hr]]]].
      exists ((idx, v) :: pre). simpl. repeat split.
      * rewrite Hf. reflexivity.
      * constructor; [apply Z.eqb_eq, E | exact Hc].
      * exact Hr.
    + injection H as <- <-. exists []. repeat split; [constructor|].
      intros p t' Hp. injection Hp as <- _. simpl. apply Z.eqb_neq, E.
Qed.

Lemma sorted_app_r {A} (R : A -> A -> Prop) l1 l2 :
  StronglySorted R (l1 ++ l2) -> StronglySorted R l2.
Proof.
  induction l1 as [|x t IH]; simpl; intros H; [exact H|].
  apply IH. inversion H. assumption.
Qed.

Lemma sum_range_block i L :
  (2 * sum_range (i + 1) (i + L + 1) = L * (2 * i + L + 1))%nat.
Proof.
  unfold sum_range. replace (i + L + 1 - (i + 1))%nat with L by lia.
  induction L as [|L IH]; [reflexivity|].
  rewrite seq_S, list_sum_app. simpl list_sum at 2. nia.
Qed.

Lemma Q_of_nat_eq a b : a = b -> (Q_of_nat a == Q_of_nat b)%Q.
Proof. intros ->. reflexivity. Qed.

(** Over the sorted pairs, starting at sorted position [i], every pair
    [(idx, v)] is assigned [i + #(values < v) + (#(values = v) + 1) / 2]. *)
Lemma rank_assigns_midrank fuel i l :
  (length l <= fuel)%nat -> StronglySorted le_val l ->
  forall idx v, In (idx, v) l ->
  exists q, In (idx, q) (rank_assigns fuel i l) /\
    (q == Q_of_nat i + Q_of_nat (cnt (fun p => Z.ltb p.2 v) l)
          + (Q_of_nat (cnt (fun p => Z.eqb p.2 v) l) + 1) / 2)%Q.
Proof.
  revert i l. induction fuel as [|fuel IH]; intros i l Hf Hs idx v Hin.
  { destruct l; [destruct Hin | simpl in Hf; lia]. }
  destruct l as [|[idx0 c] t]; [destruct Hin|].
  cbn [rank_assigns].
  destruct (take_run c ((idx0, c) :: t)) as [same rest] eqn:E.
  pose proof (take_run_head _ _ _ _ _ E) as Hne.
  destruct (take_run_split _ _ _ _ E) as [pre [Hl [Hfst [Hc Hr]]]].
  assert (HL : length pre = length same) by (rewrite <- Hfst, length_map; reflexivity).
  assert (Hpre : pre <> []) by (intros ->; simpl in Hfst; subst same; congruence).
  assert (Hgt : forall p, In p rest -> c < p.2).
  { destruct pre as [|p0 pre']; [congruence|].
    simpl in Hl. injection Hl as Hp0 Ht. subst p0 t.
    assert (Hsr : StronglySorted le_val rest)
      by (apply (sorted_app_r _ ((idx0, c) :: pre')); exact Hs).
    inversion Hs as [|? ? _ Hall].
    rewrite List.Forall_forall in Hall.
    intros p Hp.
    assert (Hge : c <= p.2) by (apply (Hall p); apply in_or_app; right; exact Hp).
    destruct rest as [|r0 rt]; [destruct Hp|].
    assert (Hr0 : r0.2 <> c) by (apply (Hr r0 rt); reflexivity).
    assert (Hr0ge : c <= r0.2) by (apply (Hall r0); apply in_or_app; right; left; reflexivity).
    destruct Hp as [<-|Hp]; [lia|].
    inversion Hsr as [|? ? _ Hrt]; subst. rewrite List.Forall_forall in Hrt.
    specialize (Hrt p Hp). unfold le_val in Hrt. lia. }
  assert (Hlen : length ((idx0, c) :: t) = (length pre + length rest)%nat)
    by (rewrite Hl, length_app; reflexivity).
  rewrite Hl. rewrite Hl in Hin. apply in_app_or in Hin as [Hin | Hin].
  - (* a pair of the current run: value [c] *)
    rewrite List.Forall_forall in Hc. pose proof (Hc _ Hin) as Hv. simpl in Hv. subst v.
    eexists. split.
    + apply in_or_app. left. apply in_map_iff. exists idx. split; [reflexivity|].
      rewrite <- Hfst. apply in_map_iff. exists (idx, c). auto.
    + rewrite !cnt_app.
      rewrite (cnt_const _ (fun p : nat * Z => p.2 = c) pre false) by
        (try (apply List.Forall_forall; exact Hc); intros x Hx; apply Z.ltb_ge; lia).
      rewrite (cnt_const _ (fun p : nat * Z => c < p.2) rest false) by
        (try (apply List.Forall_forall; exact Hgt); intros x Hx; apply Z.ltb_ge; lia).
      rewrite (cnt_const _ (fun p : nat * Z => p.2 = c) pre true) by
        (try (apply List.Forall_forall; exact Hc); intros x Hx; apply Z.eqb_eq; lia).
      rewrite (cnt_const _ (fun p : nat * Z => c < p.2) rest false) by
        (try (apply List.Forall_forall; exact Hgt); intros x Hx; apply Z.eqb_neq; lia).
      rewrite HL. set (L := length same).
      assert (HLz : L <> O) by (unfold L; destruct same; [congruence | discriminate]).
      pose proof (Q_of_nat_eq _ _ (sum_range_block i L)) as Hb.
      rewrite !Q_of_nat_mul, !Q_of_nat_add, Q_of_nat_mul in Hb.
      assert (HQL : ~ (Q_of_nat L == 0)%Q) by (apply Q_of_nat_nonzero; exact HLz).
      change (Q_of_nat 2) with (inject_Z 2) in Hb.
      change (Q_of_nat 1) with (inject_Z 1) in Hb.
      set (S := Q_of_nat (sum_range (i + 1) (i + L + 1))) in *.
      assert (HS : (S == (inject_Z 2 * S) / 2)%Q) by field.
      rewrite HS, Hb. replace (L + 0)%nat with L by lia.
      change (Q_of_nat 0) with 0%Q.
      simpl (0 + 0)%nat. change (Q_of_nat 0) with 0%Q. field. exact HQL.
  - (* a later run: value above [c] *)
    pose proof (Hgt _ Hin) as Hv. simpl in Hv.
    assert (Hsr : StronglySorted le_val rest)
      by (apply (sorted_app_r _ pre); rewrite <- Hl; exact Hs).
    assert (Hp1 : (1 <= length pre)%nat) by (destruct pre; [congruence | simpl; lia]).
    assert (Hrf : (length rest <= fuel)%nat) by (simpl in Hf, Hlen; lia).
    destruct (IH (i + length same)%nat rest Hrf Hsr idx v Hin)
      as [q [Hq Hqe]].
    exists q. split; [apply in_or_app; right; exact Hq|].
    rewrite Hqe, !cnt_app.
    rewrite (cnt_const _ (fun p : nat * Z => p.2 = c) pre true) by
      (try exact Hc; intros x Hx; apply Z.ltb_lt; lia).
    rewrite (cnt_const _ (fun p : nat * Z => p.2 = c) pre false) by
      (try exact Hc; intros x Hx; apply Z.eqb_neq; lia).
    rewrite HL, !Q_of_nat_add. change (Q_of_nat 0) with (inject_Z 0). field.
Qed.

(** The midrank of [v] among [values]: [#(< v) + (#(= v) + 1) / 2]. *)
Definition midrank (v : Z) (values : list Z) : Q :=
  (Q_of_nat (count_lt v values) + (Q_of_nat (count_eq v values) + 1) / 2)%Q.

Lemma cnt_enumerate (f : Z -> bool) (values : list Z) :
  cnt (fun p : nat * Z => f p.2) (enumerate values) = cnt f values.
Proof.
  rewrite <- cnt_map. unfold enumerate. rewrite enumerate_snd_from. reflexivity.
Qed.

Lemma ranks_of_midrank (values : list Z) :
  exists rs, ranks_of values = inr rs /\ length rs = length values /\
    forall k v, nth_error values k = Some v ->
      exists r, nth_error rs k = Some r /\ (r == midrank v values)%Q.
Proof.
  unfold ranks_of.
  set (n := length values).
  set (sp := sort_by_value (enumerate values)).
  assert (Hperm : Permutation sp (enumerate values)) by apply sort_by_value_perm.
  assert (Hlen : length sp = n).
  { rewrite (Permutation_length Hperm). apply length_enumerate. }
  set (A := rank_assigns (length sp) 0 sp).
  assert (HA : map fst A = map fst sp) by (apply rank_assigns_fst; lia).
  assert (Hkeys : Permutation (map fst A) (seq 0 n)).
  { rewrite HA. unfold n. rewrite <- (enumerate_fst values).
    apply Permutation_map. exact Hperm. }
  assert (Hnd : List.NoDup (map fst A)).
  { eapply Permutation_NoDup; [symmetry; exact Hkeys | apply seq_NoDup]. }
  rewrite rank_loop_assigns. fold A.
  set (m := foldl ins ∅ A).
  set (g := fun k => default 0%Q (m !! k)).
  assert (Hg : forall p, In p A -> g p.1 = p.2).
  { intros [k q] Hp. unfold g, m. simpl. erewrite foldl_ins_in; eauto. }
  exists (map g (seq 0 n)). split; [|split].
  - unfold rank_list. apply emapM_ok. intros k Hk.
    apply (Permutation_in _ (Permutation_sym Hkeys)) in Hk.
    apply in_map_iff in Hk as [[k' q] [Hk Hin]]. simpl in Hk. subst k'.
    pose proof (Hg _ Hin) as Hgk. simpl in Hgk. rewrite Hgk.
    unfold m. erewrite foldl_ins_in; eauto.
  - rewrite length_map, length_seq. reflexivity.
  - intros k v Hk.
    assert (Hkn : (k < n)%nat) by (apply nth_error_Some; congruence).
    assert (Hin : In (k, v) sp).
    { apply (Permutation_in _ (Permutation_sym Hperm)).
      apply (enumerate_nth_from 0 values k v Hk). }
    destruct (rank_assigns_midrank (length sp) 0 sp (le_n _)
                (sort_by_value_sorted _) k v Hin) as [q [Hq Hqe]].
    exists q. split.
    + rewrite nth_error_map, nth_error_seq.
      destruct (Nat.ltb_spec k n); [|lia]. simpl.
      f_equal. exact (Hg _ Hq).
    + rewrite Hqe. unfold midrank, count_lt, count_eq.
      rewrite (cnt_perm _ _ _ Hperm), (cnt_perm _ _ _ Hperm).
      rewrite (cnt_enumerate (fun w => Z.ltb w v)), (cnt_enumerate (fun w => Z.eqb w v)).
      change (Q_of_nat 0) with 0%Q. ring.
Qed.

Lemma ranks_of_nth values rs k v :
  ranks_of values = inr rs -> nth_error values k = Some v ->
  exists r, nth_error rs k = Some r /\ (r == midrank v values)%Q.
Proof.
  intros Hr Hk. destruct (ranks_of_midrank values) as [rs' [Hr' [_ H]]].
  rewrite Hr in Hr'. injection Hr' as <-. apply H, Hk.
Qed.

Lemma cnt_le_sum {A} (f g h : A -> bool) l :
  (forall x, In x l -> (Nat.b2n (f x) + Nat.b2n (g x) <= Nat.b2n (h x))%nat) ->
  (cnt f l + cnt g l <= cnt h l)%nat.
Proof.
  unfold cnt. induction l as [|x t IH]; intros Hx; simpl; [lia|].
  specialize (Hx x (or_introl eq_refl)) as Hxx.
  assert (IH' := IH (fun y Hy => Hx y (or_intror Hy))).
  destruct (f x), (g x), (h x); simpl in *; lia.
Qed.

Lemma cnt_le_length {A} (f : A -> bool) l : (cnt f l <= length l)%nat.
Proof. unfold cnt. induction l as [|x t IH]; simpl; [lia|]. destruct (f x); simpl; lia. Qed.

Lemma count_eq_pos v values : In v values -> (1 <= count_eq v values)%nat.
Proof.
  unfold count_eq, cnt. induction values as [|w t IH]; intros Hin; [destruct Hin|].
  simpl. destruct (Z.eqb_spec w v) as [->|Hne]; simpl; [lia|].
  apply IH. destruct Hin; [congruence | assumption].
Qed.

Lemma count_lt_eq_le v values : (count_lt v values + count_eq v values <= length values)%nat.
Proof.
  unfold count_lt, count_eq, cnt. induction values as [|w t IH]; simpl; [lia|].
  destruct (Z.ltb_spec w v), (Z.eqb_spec w v); simpl; lia.
Qed.

Lemma count_lt_mono va vb values : va < vb ->
  (count_lt va values + count_eq va values <= count_lt vb values)%nat.
Proof.
  intros Hab. apply cnt_le_sum. intros w _.
  destruct (Z.ltb_spec w va), (Z.eqb_spec w va), (Z.ltb_spec w vb); simpl; lia.
Qed.

Lemma Q_of_nat_le a b : (a <= b)%nat -> (Q_of_nat a <= Q_of_nat b)%Q.
Proof. intros H. unfold Q_of_nat. rewrite <- Zle_Qle. lia. Qed.

Lemma Qhalf x : (x / 2 == (1 # 2) * x)%Q.
Proof. field. Qed.

Lemma Q_of_nat_nonneg a : (0 <= Q_of_nat a)%Q.
Proof. change 0%Q with (Q_of_nat 0). apply Q_of_nat_le. lia. Qed.

Lemma midrank_lt va vb values : In va values -> va < vb ->
  (midrank va values < midrank vb values)%Q.
Proof.
  intros Hin Hab. unfold midrank. rewrite !Qhalf.
  pose proof (count_lt_mono va vb values Hab) as Hm.
  pose proof (count_eq_pos va values Hin) as He.
  apply Q_of_nat_le in Hm. rewrite Q_of_nat_add in Hm.
  apply Q_of_nat_le in He. change (Q_of_nat 1) with 1%Q in He.
  pose proof (Q_of_nat_nonneg (count_eq vb values)). lra.
Qed.

Lemma count_eq_nodup v values :
  List.NoDup values -> In v values -> count_eq v values = 1%nat.
Proof.
  unfold count_eq, cnt. induction 1 as [|w t Hw Hnd IH]; intros Hin; [destruct Hin|].
  simpl. destruct (Z.eqb_spec w v) as [->|Hne].
  - simpl. f_equal. clear IH Hin. induction t as [|x t' IH']; simpl; [reflexivity|].
    destruct (Z.eqb_spec x v) as [->|]; [exfalso; apply Hw; left; reflexivity|].
    apply IH'. intros H; apply Hw; right; exact H. inversion Hnd; assumption.
  - apply IH. destruct Hin; [congruence | assumption].
Qed.

End RankOrder.

(** ** The generators of get_group_indices, as consumed by get_group_means *)

Module GenProps.

(** The length of the longest prefix of [l] whose labels all equal [x]. *)
Fixpoint prefix_len (x : string) (l : list string) : nat :=
  match l with
  | y :: t => if String.eqb y x then S (prefix_len x t) else O
  | [] => O
  end.

(** How many of [i], [i + 1], ... the list [l] starts with. *)
Fixpoint run_from (i : nat) (l : list nat) : nat :=
  match l with
  | x :: t => if Nat.eqb x i then S (run_from (S i) t) else O
  | [] => O
  end.

Lemma enum_filter_bound p s l : Forall (fun i => (s <= i)%nat) (enum_filter p s l).
Proof.
  revert s. induction l as [|v t IH]; intros s; simpl; [constructor|].
  specialize (IH (S s)).
  assert (H : Forall (fun i => (s <= i)%nat) (enum_filter p (S s) t))
    by (eapply Forall_impl; [exact IH | simpl; lia]).
  destruct (p v); [constructor; [lia | exact H] | exact H].
Qed.

Lemma enum_filter_sorted p s l : StronglySorted lt (enum_filter p s l).
Proof.
  revert s. induction l as [|v t IH]; intros s; simpl; [constructor|].
  destruct (p v); [|apply IH].
  constructor; [apply IH|].
  eapply Forall_impl; [apply enum_filter_bound | simpl; lia].
Qed.

Lemma enum_filter_in p s l i :
  In i (enum_filter p s l) <->
  (s <= i)%nat /\ exists y, nth_error l (i - s) = Some y /\ p y = true.
Proof.
  revert s. induction l as [|v t IH]; intros s; simpl.
  - split; [tauto|]. intros [_ [y [Hy _]]]. destruct (i - s)%nat; discriminate.
  - assert (Hstep : (S s <= i)%nat /\ (exists y, nth_error t (i - S s) = Some y /\ p y = true)
              <-> (s <= i)%nat /\ i <> s /\
                  exists y, nth_error (v :: t) (i - s) = Some y /\ p y = true).
    { split.
      - intros [Hle Hy]. split; [lia|]. split; [lia|].
        replace (i - s)%nat with (S (i - S s)) by lia. exact Hy.
      - intros [Hle [Hne Hy]]. split; [lia|].
        replace (i - s)%nat with (S (i - S s)) in Hy by lia. exact Hy. }
    destruct (p v) eqn:Hp; simpl; rewrite IH, Hstep.
    + split.
      * intros [<-|H]; [|tauto]. split; [lia|]. exists v.
        rewrite Nat.sub_diag. auto.
      * intros [Hle Hy]. destruct (Nat.eq_dec i s) as [->|Hne]; [left; reflexivity|].
        right. auto.
    + split; [tauto|]. intros [Hle Hy].
      destruct (Nat.eq_dec i s) as [->|Hne]; [|auto].
      rewrite Nat.sub_diag in Hy. destruct Hy as [y [Hy Hpy]].
      simpl in Hy. injection Hy as <-. congruence.
Qed.

Lemma run_from_enum_filter x s l :
  run_from s (enum_filter (fun v => String.eqb v x) s l) = prefix_len x l.
Proof.
  revert s. induction l as [|v t IH]; intros s; simpl; [reflexivity|].
  destruct (String.eqb v x).
  - simpl. rewrite Nat.eqb_refl, IH. reflexivity.
  - pose proof (enum_filter_bound (fun v => String.eqb v x) (S s) t) as Hb.
    destruct (enum_filter (fun v => String.eqb v x) (S s) t) as [|y r]; [reflexivity|].
    inversion Hb as [|? ? Hy _]; subst. simpl.
    destruct (Nat.eqb_spec y s); [lia | reflexivity].
Qed.

Lemma gen_contains_absent i rest :
  Forall (fun y => y <> i) rest -> gen_contains i rest = (false, []).
Proof.
  induction 1 as [|y t Hy _ IH]; simpl; [reflexivity|].
  destruct (Nat.eqb_spec y i); [congruence | exact IH].
Qed.

Lemma filter_in_gen_nil l : filter_in_gen [] l = [].
Proof. induction l as [|[i v] t IH]; simpl; [reflexivity | exact IH]. Qed.

(** Testing [i in gen] for [i = 0, 1, ...] against a generator yielding
    increasing positions keeps the values up to the first position it does
    not yield: the failed test exhausts the generator. *)
Lemma filter_in_gen_prefix (vr : list Q) i rest :
  StronglySorted lt rest -> Forall (fun x => (i <= x)%nat) rest ->
  filter_in_gen rest (combine (seq i (length vr)) vr) = firstn (run_from i rest) vr.
Proof.
  revert i rest. induction vr as [|v t IH]; intros i rest Hs Hb.
  - simpl. destruct (run_from i rest); reflexivity.
  - simpl. destruct rest as [|x r].
    + simpl. apply filter_in_gen_nil.
    + inversion Hs as [|? ? Hsr Hxr]; subst. inversion Hb as [|? ? Hxi Hbr]; subst.
      simpl. destruct (Nat.eqb_spec x i) as [->|Hne].
      * simpl. f_equal. apply IH; [exact Hsr|].
        eapply Forall_impl; [exact Hxr | simpl; lia].
      * rewrite gen_contains_absent by (eapply Forall_impl; [exact Hxr | simpl; lia]).
        simpl. apply filter_in_gen_nil.
Qed.

(** [emapM] succeeds only if it succeeds on every element. *)
Lemma emapM_inr {A B} (f : A -> Exc + B) l ys :
  emapM f l = inr ys -> Forall2 (fun x y => f x = inr y) l ys.
Proof.
  revert ys. induction l as [|x t IH]; intros ys H; simpl in H.
  - injection H as <-. constructor.
  - destruct (f x) as [e|y] eqn:E; [discriminate|]. simpl in H.
    destruct (emapM f t) as [e|ys'] eqn:E'; [discriminate|]. simpl in H.
    injection H as <-. constructor; [exact E | apply IH; reflexivity].
Qed.

Lemma qsum_nonneg l : Forall (fun q => 0 <= q)%Q l -> (0 <= qsum l)%Q.
Proof.
  induction 1 as [|x t Hx _ IH]; simpl; [apply Qle_refl|].
  change 0%Q with (0 + 0)%Q. apply Qplus_le_compat; assumption.
Qed.

End GenProps.

(** ** calculate_kw_h, kruskal_wallis and conover_iman *)

Module KwProps.

Lemma Forall2_Forall_r {A B} (P : A -> B -> Prop) (Q : B -> Prop) l ys :
  (forall x y, P x y -> Q y) -> Forall2 P l ys -> Forall Q ys.
Proof. intros H. induction 1; constructor; eauto. Qed.

(** One term [count * (mean - expected_rank) ** 2 / variance] of H. *)
Lemma kw_term_nonneg gm gc e var g t :
  (0 < var)%Q -> (forall g c, gc !! g = Some c -> 0 <= c) ->
  ebind (dict_get gc g) (fun c =>
  ebind (dict_get gm g) (fun m =>
  py_div (inject_Z c * ((m - e) ^ 2)) var)) = inr t -> (0 <= t)%Q.
Proof.
  intros Hv Hc H. unfold dict_get in H.
  destruct (gc !! g) as [c|] eqn:Ec; [|discriminate]. simpl in H.
  destruct (gm !! g) as [m|]; [|discriminate]. simpl in H.
  unfold py_div in H. destruct (Qeq_bool var 0); [discriminate|].
  injection H as <-. apply Qle_shift_div_l; [exact Hv|].
  rewrite Qmult_0_l. apply Qmult_le_0_compat; [|apply Qsqr_nonneg].
  change 0%Q with (inject_Z 0). rewrite <- Zle_Qle. apply (Hc g), Ec.
Qed.

(** The exact outcome of [kruskal_wallis] on a non-empty registry. *)
Lemma kw_type_error_ranks p c alpha s gs vs rs :
  st_data s = Some (gs, vs) -> st_groups s <> [] -> ranks_of vs = inr rs ->
  kruskal_wallis p c alpha s =
    (set_value_ranks (Some rs)
       (set_group_indices (Some (group_indices_of gs (st_groups s)))
          (set_alpha (Some alpha) s)),
     inl TypeError).
Proof.
  intros Hd Hg Hr. destruct (st_groups s) as [|g reg'] eqn:Hreg; [congruence|].
  unfold kruskal_wallis, bind, get, modify, lift, ret, raise,
    get_group_indices, get_ranks.
  unfold bind, get, lift, ret, raise.
  repeat first [ rewrite Hd | rewrite Hreg | rewrite Hr
               | rewrite Pipeline.get_group_counts_type_error
               | progress cbv beta iota zeta | progress Methods.unfold_state ].
  reflexivity.
Qed.

(** No pair ever gets a record: [len] of a generator raises first. *)
Lemma conover_pair_fails tp tc s k R Ri Rj :
  exists e, conover_pair tp tc s k R Ri Rj = inl e.
Proof.
  unfold conover_pair. destruct (attr (st_group_indices s)) as [e|gi]; [eauto|].
  cbn [ebind]. destruct (dict_get gi Ri) as [e|g]; cbn [ebind py_len_gen]; eauto.
Qed.

Lemma conover_loop_state tp tc k R pairs s :
  exists r, conover_loop tp tc k R pairs s = (s, r) /\ (r = inr tt <-> pairs = []).
Proof.
  destruct pairs as [|[Ri Rj] t]; simpl.
  - exists (inr tt). split; [reflexivity | tauto].
  - unfold bind, get, lift. destruct (conover_pair_fails tp tc s k R Ri Rj) as [e ->].
    exists (inl e). split; [reflexivity|]. split; discriminate.
Qed.

Lemma combinations2_nil {A} (l : list A) : combinations2 l = [] <-> (length l <= 1)%nat.
Proof.
  destruct l as [|x [|y t]]; simpl.
  - split; [lia | reflexivity].
  - split; [lia | reflexivity].
  - split; [discriminate | lia].
Qed.

Lemma conover_iman_state tp tc s s' r :
  conover_iman tp tc s = (s', r) -> s' = s \/ s' = set_conover_results (Some []) s.
Proof.
  intros H. unfold conover_iman, bind, get, lift, modify in H.
  destruct (conover_check s) as [e|[]]; [injection H as <- _; left; reflexivity|].
  destruct (conover_R s) as [e|R]; [injection H as <- _; left; reflexivity|].
  destruct (conover_loop_state tp tc (Z.of_nat (length (st_groups s))) R
              (combinations2 (st_groups s)) (set_conover_results (Some []) s))
    as [r' [E _]].
  Methods.unfold_state_in H. rewrite E in H. injection H as <- _. right. reflexivity.
Qed.

(** In every reachable state [conover_results] is unset or empty. *)
Lemma reachable_conover_results p c tp tc s :
  reachable p c tp tc s ->
  st_conover_results s = None \/ st_conover_results s = Some [].
Proof.
  induction 1 as [| s groups values reg _ IH _
                  | s alpha s' r _ IH Hkw | s s' r _ IH Hci].
  - left. reflexivity.
  - exact IH.
  - apply Methods.kw_cases in Hkw as [[_ [-> _]] | [_ [_ [_ [_ [Hcr _]]]]]].
    + exact IH.
    + rewrite Hcr. exact IH.
  - apply conover_iman_state in Hci as [-> | ->].
    + exact IH.
    + right. reflexivity.
Qed.

(** With data stored and at least one pair of groups, [conover_iman]
    always raises: at its guard, or at the first pair. *)
Lemma conover_iman_pairs_raise tp tc s gs vs s' r :
  st_data s = Some (gs, vs) -> combinations2 (st_groups s) <> [] ->
  conover_iman tp tc s = (s', r) -> exists e, r = inl e.
Proof.
  intros Hd Hp H. unfold conover_iman, bind, get, lift, modify in H.
  destruct (conover_check s) as [e|[]]; [injection H as _ <-; eauto|].
  unfold conover_R in H. rewrite Hd in H. cbn [ebind attr] in H.
  destruct (conover_loop_state tp tc (Z.of_nat (length (st_groups s)))
              (sum_squares (gs, vs).2) (combinations2 (st_groups s))
              (set_conover_results (Some []) s)) as [r' [E Hr]].
  Methods.unfold_state_in H. rewrite E in H. injection H as _ <-.
  destruct r' as [e|[]]; [eauto|]. exfalso. apply Hp, Hr. reflexivity.
Qed.

End KwProps.

(** * The claims *)

(** C1 (code_bug). Claim: once data is stored, [kruskal_wallis] completes
    for every alpha. The code: whenever an observation set is stored and the
    group registry is non-empty, [kruskal_wallis] raises [TypeError]
    ([get_group_counts] takes [len] of the generators [get_group_indices]
    returns). *)
Theorem kruskal_wallis_raises_type_error p c alpha s gs vs :
  st_data s = Some (gs, vs) -> st_groups s <> [] ->
  snd (kruskal_wallis p c alpha s) = inl TypeError.
Proof.
  intros Hd Hg. destruct (Pipeline.kw_type_error p c alpha s gs vs Hd Hg) as [rs ->].
  reflexivity.
Qed.

Lemma kruskal_wallis_raises_type_error_witness :
  st_data (add_data ["A"%string] [1] ["A"%string] init_state) = Some (["A"%string], [1]) /\
  st_groups (add_data ["A"%string] [1] ["A"%string] init_state) <> [] /\
  snd (kruskal_wallis (fun _ _ => 0%Q) (fun _ _ => 0%Q) (5 # 100)
         (add_data ["A"%string] [1] ["A"%string] init_state)) = inl TypeError.
Proof.
  split; [reflexivity|]. split; [discriminate|].
  apply (kruskal_wallis_raises_type_error _ _ _ _ ["A"%string] [1]);
    [reflexivity | discriminate].
Defined.

(** C2 (code_bug). Scenario groups = [A,A,A,B,B,B], values = [1..6],
    alpha = 0.05: the ranks are [1..6], but [kruskal_wallis] raises
    [TypeError] whatever the set order of the registry, so no H, degrees of
    freedom or outcome is produced. *)
Theorem scenario_no_ties_raises p c reg :
  set_order ["A"; "A"; "A"; "B"; "B"; "B"]%string reg ->
  ranks_of [1; 2; 3; 4; 5; 6] = inr [1; 2; 3; 4; 5; 6]%Q /\
  snd (kruskal_wallis p c (5 # 100)
         (add_data ["A"; "A"; "A"; "B"; "B"; "B"]%string [1; 2; 3; 4; 5; 6] reg
            init_state)) = inl TypeError /\
  st_h_value (fst (kruskal_wallis p c (5 # 100)
         (add_data ["A"; "A"; "A"; "B"; "B"; "B"]%string [1; 2; 3; 4; 5; 6] reg
            init_state))) = None.
Proof.
  intros Hreg. split; [vm_compute; reflexivity|].
  edestruct Pipeline.kw_type_error as [rs ->];
    [reflexivity | apply (set_order_nonempty _ _ _ Hreg) |].
  split; reflexivity.
Qed.

Lemma scenario_no_ties_raises_witness :
  set_order ["A"; "A"; "A"; "B"; "B"; "B"]%string ["A"; "B"]%string /\
  snd (kruskal_wallis (fun _ _ => 0%Q) (fun _ _ => 0%Q) (5 # 100)
         (add_data ["A"; "A"; "A"; "B"; "B"; "B"]%string [1; 2; 3; 4; 5; 6]
            ["A"; "B"]%string init_state)) = inl TypeError.
Proof.
  split; [set_order_tac|].
  apply (scenario_no_ties_raises (fun _ _ => 0%Q) (fun _ _ => 0%Q)).
  set_order_tac.
Defined.

(** C3 (code_bug). Claim: [kruskal_wallis] computes H, sets the degrees of
    freedom to k-1 and decides the outcome. The code: on groups = [A,B],
    values = [1,2] it raises [TypeError] for every alpha and every set order,
    leaving [h_value], [degf] and [outcome] unset. *)
Theorem kruskal_wallis_computes_no_h p c alpha reg :
  set_order ["A"; "B"]%string reg ->
  snd (kruskal_wallis p c alpha (add_data ["A"; "B"]%string [1; 2] reg init_state))
    = inl TypeError /\
  st_h_value (fst (kruskal_wallis p c alpha
                     (add_data ["A"; "B"]%string [1; 2] reg init_state))) = None /\
  st_degf (fst (kruskal_wallis p c alpha
                  (add_data ["A"; "B"]%string [1; 2] reg init_state))) = None /\
  st_outcome (fst (kruskal_wallis p c alpha
                     (add_data ["A"; "B"]%string [1; 2] reg init_state))) = None.
Proof.
  intros Hreg.
  edestruct Pipeline.kw_type_error as [rs ->];
    [reflexivity | apply (set_order_nonempty _ _ _ Hreg) |].
  repeat split.
Qed.

Lemma kruskal_wallis_computes_no_h_witness :
  set_order ["A"; "B"]%string ["B"; "A"]%string /\
  snd (kruskal_wallis (fun _ _ => 0%Q) (fun _ _ => 0%Q) (5 # 100)
         (add_data ["A"; "B"]%string [1; 2] ["B"; "A"]%string init_state))
    = inl TypeError.
Proof.
  split; [set_order_tac|].
  apply (kruskal_wallis_computes_no_h (fun _ _ => 0%Q) (fun _ _ => 0%Q)).
  set_order_tac.
Defined.

(** C6 (code_bug). Claim: H is the same on data permuted pairwise. The
    code computes no H on either: on ([A,B],[1,2]) and on the permuted
    ([B,A],[2,1]) [kruskal_wallis] raises [TypeError] and leaves [h_value]
    unset. *)
Theorem kruskal_wallis_permuted_no_h p c alpha reg reg' :
  set_order ["A"; "B"]%string reg -> set_order ["B"; "A"]%string reg' ->
  snd (kruskal_wallis p c alpha (add_data ["A"; "B"]%string [1; 2] reg init_state))
    = inl TypeError /\
  snd (kruskal_wallis p c alpha (add_data ["B"; "A"]%string [2; 1] reg' init_state))
    = inl TypeError /\
  st_h_value (fst (kruskal_wallis p c alpha
                     (add_data ["A"; "B"]%string [1; 2] reg init_state))) = None /\
  st_h_value (fst (kruskal_wallis p c alpha
                     (add_data ["B"; "A"]%string [2; 1] reg' init_state))) = None.
Proof.
  intros Hreg Hreg'.
  edestruct (Pipeline.kw_type_error p c alpha
               (add_data ["A"; "B"]%string [1; 2] reg init_state)) as [rs ->];
    [reflexivity | apply (set_order_nonempty _ _ _ Hreg) |].
  edestruct (Pipeline.kw_type_error p c alpha
               (add_data ["B"; "A"]%string [2; 1] reg' init_state)) as [rs' ->];
    [reflexivity | apply (set_order_nonempty _ _ _ Hreg') |].
  repeat split.
Qed.

Lemma kruskal_wallis_permuted_no_h_witness :
  set_order ["A"; "B"]%string ["A"; "B"]%string /\
  set_order ["B"; "A"]%string ["A"; "B"]%string /\
  snd (kruskal_wallis (fun _ _ => 0%Q) (fun _ _ => 0%Q) (5 # 100)
         (add_data ["B"; "A"]%string [2; 1] ["A"; "B"]%string init_state))
    = inl TypeError.
Proof.
  split; [set_order_tac|]. split; [set_order_tac|].
  apply (kruskal_wallis_permuted_no_h (fun _ _ => 0%Q) (fun _ _ => 0%Q) (5 # 100)
           ["A"; "B"]%string); set_order_tac.
Defined.

(** C7 (code_bug). Claim: [conover_iman] produces one record per
    unordered pair of groups, computing n, R, s2, se, t and degf from the
    stored Kruskal-Wallis state. The code: no pair ever yields a record.
    The per-pair body raises in every state, before any append: the first
    read that can fail is [len] of a group index set, and that raises
    [TypeError] on the generators [get_group_indices] stores, or earlier
    on a missing attribute or key. So when the guard passes on a state
    with data, generator indices and at least two groups, [conover_iman]
    raises [TypeError] at the first pair and leaves [conover_results]
    empty: zero records where k(k-1)/2 >= 1 are claimed. *)
Theorem conover_iman_no_records tp tc s gs vs Ri Rj reg' :
  conover_check s = inr tt -> st_data s = Some (gs, vs) ->
  st_groups s = Ri :: Rj :: reg' ->
  st_group_indices s = Some (group_indices_of gs (st_groups s)) ->
  conover_iman tp tc s = (set_conover_results (Some []) s, inl TypeError) /\
  forall s0 k R a b, exists e, conover_pair tp tc s0 k R a b = inl e.
Proof.
  intros Hc Hd Hreg Hgi. split.
  - unfold conover_iman, bind, get, lift, modify. rewrite Hc.
    unfold conover_R. rewrite Hd. cbv beta iota zeta. cbn [ebind attr].
    rewrite Hreg. cbn [combinations2 map app conover_loop].
    unfold bind, get, lift, modify, conover_pair. Methods.unfold_state.
    rewrite Hgi, Hreg. cbn [ebind attr]. unfold dict_get.
    rewrite Pipeline.group_indices_lookup by (left; reflexivity). reflexivity.
  - intros s0 k R a b. apply KwProps.conover_pair_fails.
Qed.

Lemma conover_iman_no_records_witness :
  conover_check
    (set_outcome (Some Rejected) (set_h_value (Some 3%Q) (set_alpha (Some (5 # 100))
       (set_group_indices (Some (group_indices_of ["A"; "A"; "B"; "B"]%string ["A"; "B"]%string))
          (add_data ["A"; "A"; "B"; "B"]%string [1; 2; 3; 4] ["A"; "B"]%string init_state)))))
    = inr tt /\
  conover_iman (fun _ _ => 0%Q) (fun _ _ => 0%Q)
    (set_outcome (Some Rejected) (set_h_value (Some 3%Q) (set_alpha (Some (5 # 100))
       (set_group_indices (Some (group_indices_of ["A"; "A"; "B"; "B"]%string ["A"; "B"]%string))
          (add_data ["A"; "A"; "B"; "B"]%string [1; 2; 3; 4] ["A"; "B"]%string init_state)))))
    = (set_conover_results (Some [])
         (set_outcome (Some Rejected) (set_h_value (Some 3%Q) (set_alpha (Some (5 # 100))
            (set_group_indices (Some (group_indices_of ["A"; "A"; "B"; "B"]%string ["A"; "B"]%string))
               (add_data ["A"; "A"; "B"; "B"]%string [1; 2; 3; 4] ["A"; "B"]%string init_state))))),
       inl TypeError).
Proof.
  split; [reflexivity|].
  exact (proj1 (conover_iman_no_records (fun _ _ => 0%Q) (fun _ _ => 0%Q)
    (set_outcome (Some Rejected) (set_h_value (Some 3%Q) (set_alpha (Some (5 # 100))
       (set_group_indices (Some (group_indices_of ["A"; "A"; "B"; "B"]%string ["A"; "B"]%string))
          (add_data ["A"; "A"; "B"; "B"]%string [1; 2; 3; 4] ["A"; "B"]%string init_state)))))
    ["A"; "A"; "B"; "B"]%string [1; 2; 3; 4] "A"%string "B"%string [] eq_refl eq_refl eq_refl eq_refl)).
Defined.

(** C8 (code_bug). Claim: the index sets of [get_group_indices] partition
    the positions and their counts sum to N. The code: on groups = [A,B]
    [get_group_counts] raises [TypeError], and the generators all filter by
    the last registry group, so for either set order both groups' generators
    yield the same single position and the other position is in none. *)
Theorem group_indices_not_partition :
  get_group_counts ["A"; "B"]%string (group_indices_of ["A"; "B"]%string ["A"; "B"]%string)
    = inl TypeError /\
  option_map gen_items (group_indices_of ["A"; "B"]%string ["A"; "B"]%string !! "A"%string)
    = Some [1%nat] /\
  option_map gen_items (group_indices_of ["A"; "B"]%string ["A"; "B"]%string !! "B"%string)
    = Some [1%nat] /\
  option_map gen_items (group_indices_of ["A"; "B"]%string ["B"; "A"]%string !! "A"%string)
    = Some [0%nat] /\
  option_map gen_items (group_indices_of ["A"; "B"]%string ["B"; "A"]%string !! "B"%string)
    = Some [0%nat].
Proof.
  split; [apply Pipeline.get_group_counts_type_error|].
  vm_compute. repeat split.
Qed.

(** C9 (code_bug). Scenario groups = [A,B,A,B], values = [5,5,5,5]: every
    rank is 5/2, but [kruskal_wallis] raises [TypeError] for every alpha, so
    H is never computed and no outcome is given. *)
Theorem scenario_all_tied p c alpha reg :
  set_order ["A"; "B"; "A"; "B"]%string reg ->
  (exists rs, ranks_of [5; 5; 5; 5] = inr rs /\ Forall (fun r => r == 5 # 2)%Q rs) /\
  snd (kruskal_wallis p c alpha
         (add_data ["A"; "B"; "A"; "B"]%string [5; 5; 5; 5] reg init_state))
    = inl TypeError /\
  st_h_value (fst (kruskal_wallis p c alpha
         (add_data ["A"; "B"; "A"; "B"]%string [5; 5; 5; 5] reg init_state))) = None /\
  st_outcome (fst (kruskal_wallis p c alpha
         (add_data ["A"; "B"; "A"; "B"]%string [5; 5; 5; 5] reg init_state))) = None.
Proof.
  intros Hreg. split.
  - eexists. split; [vm_compute; reflexivity|].
    repeat constructor.
  - edestruct Pipeline.kw_type_error as [rs ->];
      [reflexivity | apply (set_order_nonempty _ _ _ Hreg) |].
    repeat split.
Qed.

Lemma scenario_all_tied_witness :
  set_order ["A"; "B"; "A"; "B"]%string ["B"; "A"]%string /\
  snd (kruskal_wallis (fun _ _ => 0%Q) (fun _ _ => 0%Q) (1 # 2)
         (add_data ["A"; "B"; "A"; "B"]%string [5; 5; 5; 5] ["B"; "A"]%string
            init_state)) = inl TypeError.
Proof.
  split; [set_order_tac|].
  apply (scenario_all_tied (fun _ _ => 0%Q) (fun _ _ => 0%Q) (1 # 2)).
  set_order_tac.
Defined.

(** C4 (confirmed). For every stored value sequence of length N,
    [get_ranks] returns N ranks summing to N(N+1)/2, ties or not. *)
Theorem get_ranks_sum (s : State) (groups : list string) (values : list Z) :
  st_data s = Some (groups, values) ->
  exists rs, get_ranks s = (s, inr rs) /\ length rs = length values /\
    (qsum rs == Q_of_nat (length values * (length values + 1))%nat / 2)%Q.
Proof.
  intros Hd. unfold get_ranks, bind, get, lift. rewrite Hd.
  destruct (Ranks.ranks_of_sum values) as [rs [Hr [Hl Hs]]].
  exists rs. rewrite Hr. auto.
Qed.

Lemma get_ranks_sum_witness :
  st_data (add_data ["A"; "B"; "A"]%string [7; 2; 7] ["A"; "B"]%string init_state)
    = Some (["A"; "B"; "A"]%string, [7; 2; 7]) /\
  exists rs, get_ranks (add_data ["A"; "B"; "A"]%string [7; 2; 7] ["A"; "B"]%string
                          init_state)
             = (add_data ["A"; "B"; "A"]%string [7; 2; 7] ["A"; "B"]%string init_state,
                inr rs) /\ length rs = 3%nat /\ (qsum rs == 6)%Q.
Proof.
  split; [reflexivity|].
  destruct (get_ranks_sum (add_data ["A"; "B"; "A"]%string [7; 2; 7] ["A"; "B"]%string
              init_state) ["A"; "B"; "A"]%string [7; 2; 7] eq_refl)
    as [rs [H1 [H2 H3]]].
  exists rs. split; [exact H1|]. split; [exact H2|].
  rewrite H3. vm_compute. reflexivity.
Defined.

(** C5 (confirmed). In every reachable state: [kruskal_wallis] raises the
    missing-data error exactly when no data was stored; [conover_iman]
    raises the sequencing error exactly when the Kruskal-Wallis test has not
    produced an H value or its outcome is not a rejection; and in both error
    cases the instance state is left as it was. *)
Theorem enforced_errors_leave_state (chi2_ppf chi2_cdf t_ppf t_cdf : Q -> Z -> Q)
    (s : State) :
  reachable chi2_ppf chi2_cdf t_ppf t_cdf s ->
  (forall alpha,
     snd (kruskal_wallis chi2_ppf chi2_cdf alpha s) = inl NoDataError
     <-> st_data s = None) /\
  (snd (conover_iman t_ppf t_cdf s) = inl SequencingError
     <-> st_h_value s = None \/ st_outcome s <> Some Rejected) /\
  (forall alpha,
     snd (kruskal_wallis chi2_ppf chi2_cdf alpha s) = inl NoDataError ->
     fst (kruskal_wallis chi2_ppf chi2_cdf alpha s) = s) /\
  (snd (conover_iman t_ppf t_cdf s) = inl SequencingError ->
     fst (conover_iman t_ppf t_cdf s) = s).
Proof.
  intros Hreach.
  pose proof (Methods.reachable_consistent _ _ _ _ _ Hreach) as Hcons.
  assert (Hkw : forall alpha,
    (snd (kruskal_wallis chi2_ppf chi2_cdf alpha s) = inl NoDataError ->
       st_data s = None /\ fst (kruskal_wallis chi2_ppf chi2_cdf alpha s) = s) /\
    (st_data s = None ->
       snd (kruskal_wallis chi2_ppf chi2_cdf alpha s) = inl NoDataError)).
  { intros alpha.
    destruct (kruskal_wallis chi2_ppf chi2_cdf alpha s) as [s' r] eqn:E.
    apply Methods.kw_cases in E as [[Hd [-> ->]] | [Hd [Hb _]]]; simpl.
    - auto.
    - split; [|congruence].
      intros ->. destruct (Hb NoDataError eq_refl). congruence. }
  assert (Hci :
    (snd (conover_iman t_ppf t_cdf s) = inl SequencingError ->
       conover_check s = inl SequencingError /\ fst (conover_iman t_ppf t_cdf s) = s)).
  { destruct (conover_iman t_ppf t_cdf s) as [s' r] eqn:E.
    apply Methods.ci_cases in E as [[e [Hc [-> ->]]] | [_ [Hb _]]]; simpl.
    - intros He. injection He as ->. auto.
    - intros ->. destruct (Hb SequencingError eq_refl). congruence. }
  split; [|split; [|split]].
  - intros alpha. split; [apply Hkw | apply Hkw].
  - split.
    + intros H. apply Hci in H as [Hc _]. unfold conover_check in Hc.
      destruct (st_h_value s); [|left; reflexivity].
      right. destruct (st_outcome s) as [[]|]; congruence.
    + intros H. rewrite (Methods.conover_check_fail t_ppf t_cdf s SequencingError);
        [reflexivity|].
      unfold conover_check.
      destruct (st_h_value s) eqn:Eh; [|reflexivity].
      destruct (st_outcome s) as [[]|] eqn:Eo.
      * destruct H as [H|H]; congruence.
      * reflexivity.
      * exfalso. destruct Hcons as [_ Hc]. discriminate (Hc eq_refl).
  - intros alpha H. apply Hkw, H.
  - intros H. apply Hci, H.
Qed.

Lemma enforced_errors_leave_state_witness :
  reachable (fun _ _ => 0%Q) (fun _ _ => 0%Q) (fun _ _ => 0%Q) (fun _ _ => 0%Q)
    (fst (kruskal_wallis (fun _ _ => 0%Q) (fun _ _ => 0%Q) (5 # 100)
            (add_data ["A"; "B"]%string [1; 2] ["A"; "B"]%string init_state))) /\
  snd (conover_iman (fun _ _ => 0%Q) (fun _ _ => 0%Q)
         (fst (kruskal_wallis (fun _ _ => 0%Q) (fun _ _ => 0%Q) (5 # 100)
            (add_data ["A"; "B"]%string [1; 2] ["A"; "B"]%string init_state))))
    = inl SequencingError.
Proof.
  assert (Hr : reachable (fun _ _ => 0%Q) (fun _ _ => 0%Q) (fun _ _ => 0%Q)
                 (fun _ _ => 0%Q)
    (fst (kruskal_wallis (fun _ _ => 0%Q) (fun _ _ => 0%Q) (5 # 100)
            (add_data ["A"; "B"]%string [1; 2] ["A"; "B"]%string init_state)))).
  { eapply reach_kruskal_wallis; [|apply surjective_pairing].
    apply reach_add_data; [apply reach_init | set_order_tac]. }
  split; [exact Hr|].
  apply (proj2 (proj1 (proj2 (enforced_errors_leave_state _ _ _ _ _ Hr)))).
  left. reflexivity.
Defined.

(** C10 (code_bug). Claim: a second [add_data] keeps the result
    attributes of an earlier [kruskal_wallis] run, so a later
    [conover_iman] passes its guard and computes with the new values and
    the old H, means and counts. The code: [add_data] does keep those
    attributes, but [conover_iman] never computes with them. From every
    reachable state, after a second [add_data] with at least two groups,
    [conover_iman] raises and leaves [conover_results] unset or empty.
    On the run add_data([A,B],[1,2]); kruskal_wallis(alpha);
    add_data([C,D],[3,4]); conover_iman() it raises the sequencing error:
    [kruskal_wallis] raised [TypeError] and stored no H, so the guard
    fails. *)
Theorem add_data_keeps_results p c tp tc s groups values reg :
  reachable p c tp tc s -> set_order groups reg ->
  (st_data (add_data groups values reg s) = Some (groups, values) /\
   st_groups (add_data groups values reg s) = reg /\
   st_alpha (add_data groups values reg s) = st_alpha s /\
   st_group_indices (add_data groups values reg s) = st_group_indices s /\
   st_group_counts (add_data groups values reg s) = st_group_counts s /\
   st_group_means (add_data groups values reg s) = st_group_means s /\
   st_h_value (add_data groups values reg s) = st_h_value s /\
   st_outcome (add_data groups values reg s) = st_outcome s) /\
  (forall s' r, conover_iman tp tc (add_data groups values reg s) = (s', r) ->
     (st_conover_results s' = None \/ st_conover_results s' = Some []) /\
     ((2 <= length reg)%nat -> exists e, r = inl e)) /\
  (forall alpha reg1 reg2,
     set_order ["A"; "B"]%string reg1 -> set_order ["C"; "D"]%string reg2 ->
     snd (conover_iman tp tc (add_data ["C"; "D"]%string [3; 4] reg2
            (fst (kruskal_wallis p c alpha
                    (add_data ["A"; "B"]%string [1; 2] reg1 init_state)))))
       = inl SequencingError).
Proof.
  intros Hs Hreg. split; [|split].
  - repeat split.
  - intros s' r H. split.
    + apply (KwProps.reachable_conover_results p c tp tc).
      eapply reach_conover_iman; [|exact H].
      apply reach_add_data; assumption.
    + intros Hlen.
      apply (KwProps.conover_iman_pairs_raise tp tc (add_data groups values reg s)
               groups values s' r); [reflexivity | | exact H].
      cbn [add_data set_groups set_data st_groups].
      rewrite KwProps.combinations2_nil. lia.
  - intros alpha reg1 reg2 H1 H2.
    edestruct Pipeline.kw_type_error as [rs ->];
      [reflexivity | apply (set_order_nonempty _ _ _ H1) |].
    rewrite (Methods.conover_check_fail tp tc _ SequencingError) by reflexivity.
    reflexivity.
Qed.

Lemma add_data_keeps_results_witness :
  reachable (fun _ _ => 0%Q) (fun _ _ => 0%Q) (fun _ _ => 0%Q) (fun _ _ => 0%Q)
    (fst (kruskal_wallis (fun _ _ => 0%Q) (fun _ _ => 0%Q) (5 # 100)
            (add_data ["A"; "B"]%string [1; 2] ["A"; "B"]%string init_state))) /\
  set_order ["C"; "D"]%string ["C"; "D"]%string /\
  snd (conover_iman (fun _ _ => 0%Q) (fun _ _ => 0%Q)
         (add_data ["C"; "D"]%string [3; 4] ["C"; "D"]%string
            (fst (kruskal_wallis (fun _ _ => 0%Q) (fun _ _ => 0%Q) (5 # 100)
                    (add_data ["A"; "B"]%string [1; 2] ["A"; "B"]%string init_state)))))
    = inl SequencingError.
Proof.
  assert (Hr : reachable (fun _ _ => 0%Q) (fun _ _ => 0%Q) (fun _ _ => 0%Q) (fun _ _ => 0%Q)
    (fst (kruskal_wallis (fun _ _ => 0%Q) (fun _ _ => 0%Q) (5 # 100)
            (add_data ["A"; "B"]%string [1; 2] ["A"; "B"]%string init_state)))).
  { eapply reach_kruskal_wallis; [|apply surjective_pairing].
    apply reach_add_data; [apply reach_init | set_order_tac]. }
  assert (H2 : set_order ["C"; "D"]%string ["C"; "D"]%string) by set_order_tac.
  split; [exact Hr|]. split; [exact H2|].
  apply (proj2 (proj2 (add_data_keeps_results (fun _ _ => 0%Q) (fun _ _ => 0%Q)
           (fun _ _ => 0%Q) (fun _ _ => 0%Q) _ ["C"; "D"]%string [3; 4] ["C"; "D"]%string
           Hr H2))); set_order_tac.
Defined.

(** * Further properties of the code *)

(** ** get_ranks *)

(** get_ranks: with data stored, [get_ranks] succeeds without touching the
    state and returns one rank per value; the value at position [k] gets
    its midrank: the number of smaller values plus half of one more than
    the number of values equal to it. *)
Theorem get_ranks_midrank s gs values :
  st_data s = Some (gs, values) ->
  exists rs, get_ranks s = (s, inr rs) /\ length rs = length values /\
    forall k v, nth_error values k = Some v ->
      exists r, nth_error rs k = Some r /\ (r == RankOrder.midrank v values)%Q.
Proof.
  intros Hd. destruct (RankOrder.ranks_of_midrank values) as [rs [Hr [Hl Hk]]].
  exists rs. split; [|split; assumption].
  unfold get_ranks, bind, get, lift. rewrite Hd, Hr. reflexivity.
Qed.

Lemma get_ranks_midrank_witness :
  st_data (add_data ["A"; "B"; "A"]%string [5; 2; 5] ["A"; "B"]%string init_state)
    = Some (["A"; "B"; "A"]%string, [5; 2; 5]) /\
  exists rs, get_ranks (add_data ["A"; "B"; "A"]%string [5; 2; 5] ["A"; "B"]%string init_state)
      = (add_data ["A"; "B"; "A"]%string [5; 2; 5] ["A"; "B"]%string init_state, inr rs) /\
    length rs = 3%nat /\
    forall k v, nth_error [5; 2; 5] k = Some v ->
      exists r, nth_error rs k = Some r /\ (r == RankOrder.midrank v [5; 2; 5]%Z)%Q.
Proof.
  split; [reflexivity|].
  apply (get_ranks_midrank _ ["A"; "B"; "A"]%string [5; 2; 5]). reflexivity.
Defined.

(** get_ranks: ranks order positions exactly as their values do: a smaller
    value gets a smaller rank, equal values get equal ranks. *)
Theorem ranks_of_order values rs a b va vb ra rb :
  ranks_of values = inr rs ->
  nth_error values a = Some va -> nth_error values b = Some vb ->
  nth_error rs a = Some ra -> nth_error rs b = Some rb ->
  Z.compare va vb = Qcompare ra rb.
Proof.
  intros Hr Ha Hb Hra Hrb.
  destruct (RankOrder.ranks_of_nth _ _ _ _ Hr Ha) as [ra' [Ea Qa]].
  destruct (RankOrder.ranks_of_nth _ _ _ _ Hr Hb) as [rb' [Eb Qb]].
  rewrite Hra in Ea. injection Ea as <-. rewrite Hrb in Eb. injection Eb as <-.
  pose proof (nth_error_In _ _ Ha) as Ina. pose proof (nth_error_In _ _ Hb) as Inb.
  destruct (Z.compare_spec va vb) as [<-|Hl|Hg].
  - symmetry. apply Qeq_alt. rewrite Qa, Qb. reflexivity.
  - symmetry. apply Qlt_alt. rewrite Qa, Qb. apply RankOrder.midrank_lt; assumption.
  - symmetry. apply Qgt_alt. rewrite Qa, Qb. apply RankOrder.midrank_lt; assumption.
Qed.

Lemma ranks_of_order_witness :
  ranks_of [5; 2; 5] = inr [5 # 2; 1%Q; 5 # 2] /\
  Z.compare 2 5 = Qcompare 1%Q (5 # 2).
Proof.
  split; [vm_compute; reflexivity|].
  apply (ranks_of_order [5; 2; 5] [5 # 2; 1%Q; 5 # 2] 1 2); reflexivity.
Defined.

(** get_ranks: every rank lies between 1 and the number of values. *)
Theorem ranks_of_bounds values rs r :
  ranks_of values = inr rs -> In r rs ->
  (1 <= r /\ r <= Q_of_nat (length values))%Q.
Proof.
  intros Hr Hin.
  destruct (RankOrder.ranks_of_midrank values) as [rs' [Hr' [Hl _]]].
  rewrite Hr in Hr'. injection Hr' as <-.
  apply In_nth_error in Hin as [k Hk].
  assert (Hkl : (k < length values)%nat) by (rewrite <- Hl; apply nth_error_Some; congruence).
  destruct (nth_error values k) as [v|] eqn:Hv; [|apply nth_error_Some in Hkl; congruence].
  destruct (RankOrder.ranks_of_nth _ _ _ _ Hr Hv) as [r' [E Qr]].
  rewrite Hk in E. injection E as <-. rewrite Qr. unfold RankOrder.midrank.
  rewrite RankOrder.Qhalf.
  pose proof (RankOrder.count_eq_pos v values (nth_error_In _ _ Hv)) as He.
  pose proof (RankOrder.count_lt_eq_le v values) as Hs.
  apply RankOrder.Q_of_nat_le in He, Hs. rewrite Ranks.Q_of_nat_add in Hs.
  change (Q_of_nat 1) with 1%Q in He.
  pose proof (RankOrder.Q_of_nat_nonneg (RankOrder.count_lt v values)). lra.
Qed.

Lemma ranks_of_bounds_witness :
  ranks_of [7; 3; 7; 1] = inr [7 # 2; 2%Q; 7 # 2; 1%Q] /\
  In (7 # 2) [7 # 2; 2%Q; 7 # 2; 1%Q] /\
  (1 <= 7 # 2 /\ 7 # 2 <= Q_of_nat 4)%Q.
Proof.
  split; [vm_compute; reflexivity|]. split; [left; reflexivity|].
  apply (ranks_of_bounds [7; 3; 7; 1] [7 # 2; 2%Q; 7 # 2; 1%Q]);
    [vm_compute; reflexivity | left; reflexivity].
Defined.

(** get_ranks: when all values are tied, every rank is (N + 1) / 2. *)
Theorem ranks_of_all_tied values rs c :
  Forall (fun w => w = c) values -> ranks_of values = inr rs ->
  Forall (fun r => r == (Q_of_nat (length values) + 1) / 2)%Q rs.
Proof.
  intros Hc Hr.
  destruct (RankOrder.ranks_of_midrank values) as [rs' [Hr' [Hl _]]].
  rewrite Hr in Hr'. injection Hr' as <-.
  apply List.Forall_forall. intros r Hin.
  apply In_nth_error in Hin as [k Hk].
  assert (Hkl : (k < length values)%nat) by (rewrite <- Hl; apply nth_error_Some; congruence).
  destruct (nth_error values k) as [v|] eqn:Hv; [|apply nth_error_Some in Hkl; congruence].
  destruct (RankOrder.ranks_of_nth _ _ _ _ Hr Hv) as [r' [E Qr]].
  rewrite Hk in E. injection E as <-. rewrite Qr. unfold RankOrder.midrank.
  rewrite List.Forall_forall in Hc. pose proof (Hc v (nth_error_In _ _ Hv)) as ->.
  unfold RankOrder.count_lt, RankOrder.count_eq.
  rewrite (RankOrder.cnt_const _ (fun w => w = c) values false)
    by (try (apply List.Forall_forall; exact Hc); intros x ->; apply Z.ltb_irrefl).
  rewrite (RankOrder.cnt_const _ (fun w => w = c) values true)
    by (try (apply List.Forall_forall; exact Hc); intros x ->; apply Z.eqb_refl).
  change (Q_of_nat 0) with 0%Q. ring.
Qed.

Lemma ranks_of_all_tied_witness :
  Forall (fun w => w = 4) [4; 4; 4] /\ ranks_of [4; 4; 4] = inr [6 # 3; 6 # 3; 6 # 3] /\
  Forall (fun r => r == (Q_of_nat 3 + 1) / 2)%Q [6 # 3; 6 # 3; 6 # 3].
Proof.
  assert (H : Forall (fun w => w = 4) [4; 4; 4]) by repeat constructor.
  split; [exact H|]. split; [vm_compute; reflexivity|].
  apply (ranks_of_all_tied [4; 4; 4] _ 4 H). vm_compute. reflexivity.
Defined.

(** get_ranks: when no two values are equal, the value at each position
    gets 1 plus the number of smaller values. *)
Theorem ranks_of_distinct values rs k v :
  List.NoDup values -> ranks_of values = inr rs -> nth_error values k = Some v ->
  exists r, nth_error rs k = Some r /\
    (r == Q_of_nat (S (RankOrder.count_lt v values)))%Q.
Proof.
  intros Hnd Hr Hv.
  destruct (RankOrder.ranks_of_nth _ _ _ _ Hr Hv) as [r [E Qr]].
  exists r. split; [exact E|]. rewrite Qr. unfold RankOrder.midrank.
  rewrite (RankOrder.count_eq_nodup v values Hnd (nth_error_In _ _ Hv)).
  replace (S (RankOrder.count_lt v values)) with (RankOrder.count_lt v values + 1)%nat by lia.
  rewrite Ranks.Q_of_nat_add. change (Q_of_nat 1) with 1%Q. field.
Qed.

Lemma ranks_of_distinct_witness :
  List.NoDup [30; 10; 20] /\ ranks_of [30; 10; 20] = inr [3%Q; 1%Q; 2%Q] /\
  nth_error [30; 10; 20] 0 = Some 30 /\
  exists r, nth_error [3%Q; 1%Q; 2%Q] 0 = Some r /\
    (r == Q_of_nat (S (RankOrder.count_lt 30%Z [30; 10; 20]%Z)))%Q.
Proof.
  assert (H : List.NoDup [30; 10; 20]).
  { repeat constructor; simpl; intuition discriminate. }
  split; [exact H|]. split; [vm_compute; reflexivity|]. split; [reflexivity|].
  apply (ranks_of_distinct [30; 10; 20] _ 0 30 H); [vm_compute|]; reflexivity.
Defined.

(** ** get_group_indices and get_group_means *)

(** get_group_indices: with data stored, every registry group gets a
    generator that yields, in increasing order, exactly the positions
    labelled with the last group of the registry, whichever group it was
    built for (the comprehension variable is read late). *)
Theorem get_group_indices_late_binding s gv vs g :
  st_data s = Some (gv, vs) -> In g (st_groups s) ->
  exists gi gen, get_group_indices s = (s, inr gi) /\ gi !! g = Some gen /\
    StronglySorted lt (gen_items gen) /\
    forall i, In i (gen_items gen) <-> nth_error gv i = last (st_groups s).
Proof.
  intros Hd Hg.
  set (cell := default EmptyString (last (st_groups s))).
  assert (Hlast : last (st_groups s) = Some cell).
  { unfold cell. destruct (last (st_groups s)) eqn:E; [reflexivity|].
    apply last_None in E. rewrite E in Hg. destruct Hg. }
  exists (group_indices_of gv (st_groups s)), (GenIdx gv cell). split; [|split; [|split]].
  - unfold get_group_indices, bind, get, ret. rewrite Hd. reflexivity.
  - apply Pipeline.group_indices_lookup, Hg.
  - apply GenProps.enum_filter_sorted.
  - intros i. unfold gen_items. simpl. rewrite GenProps.enum_filter_in, Nat.sub_0_r, Hlast.
    split.
    + intros [_ [y [Hy Hyc]]]. apply String.eqb_eq in Hyc. subst y. exact Hy.
    + intros Hy. split; [lia|]. exists cell. split; [exact Hy | apply String.eqb_refl].
Qed.

Lemma get_group_indices_late_binding_witness :
  st_data (add_data ["A"; "B"; "A"]%string [1; 2; 3] ["A"; "B"]%string init_state)
    = Some (["A"; "B"; "A"]%string, [1; 2; 3]) /\
  In "A"%string (st_groups (add_data ["A"; "B"; "A"]%string [1; 2; 3] ["A"; "B"]%string init_state)) /\
  exists gi gen,
    get_group_indices (add_data ["A"; "B"; "A"]%string [1; 2; 3] ["A"; "B"]%string init_state)
      = (add_data ["A"; "B"; "A"]%string [1; 2; 3] ["A"; "B"]%string init_state, inr gi) /\
    gi !! "A"%string = Some gen /\ StronglySorted lt (gen_items gen) /\
    forall i, In i (gen_items gen) <->
      nth_error ["A"; "B"; "A"]%string i
        = last (st_groups (add_data ["A"; "B"; "A"]%string [1; 2; 3] ["A"; "B"]%string init_state)).
Proof.
  split; [reflexivity|]. split; [simpl; left; reflexivity|].
  apply (get_group_indices_late_binding _ ["A"; "B"; "A"]%string [1; 2; 3] "A"%string);
    [reflexivity | simpl; left; reflexivity].
Defined.

(** get_group_means: for a generator built by get_group_indices, the ranks
    collected for any registry group are those of the longest run of
    leading observations labelled with the last registry group; the first
    position the generator does not yield exhausts it. *)
Theorem group_rank_values_prefix gv reg g x vr :
  In g reg -> last reg = Some x ->
  group_rank_values (group_indices_of gv reg) g vr
    = inr (firstn (GenProps.prefix_len x gv) vr).
Proof.
  intros Hg Hx. destruct vr as [|v t].
  - destruct (GenProps.prefix_len x gv); reflexivity.
  - unfold group_rank_values, enumerate. cbn [length seq combine].
    unfold dict_get. rewrite Pipeline.group_indices_lookup by exact Hg. cbn [ebind].
    rewrite Hx. unfold gen_items. cbn [gen_source gen_cell].
    change ((0%nat, v) :: combine (seq 1 (length t)) t)
      with (combine (seq 0 (length (v :: t))) (v :: t)).
    rewrite GenProps.filter_in_gen_prefix.
    + rewrite GenProps.run_from_enum_filter. reflexivity.
    + apply GenProps.enum_filter_sorted.
    + apply GenProps.enum_filter_bound.
Qed.

Lemma group_rank_values_prefix_witness :
  In "A"%string ["A"; "B"]%string /\ last ["A"; "B"]%string = Some "B"%string /\
  group_rank_values (group_indices_of ["B"; "B"; "A"; "B"]%string ["A"; "B"]%string)
    "A"%string [1%Q; 2%Q; 3%Q; 4%Q] = inr [1%Q; 2%Q].
Proof.
  split; [left; reflexivity|]. split; [reflexivity|].
  apply (group_rank_values_prefix ["B"; "B"; "A"; "B"]%string ["A"; "B"]%string
           "A"%string "B"%string [1%Q; 2%Q; 3%Q; 4%Q]); [left | ]; reflexivity.
Defined.

(** ** calculate_kw_h *)

(** calculate_kw_h: with at least one case, a positive variance and
    non-negative group counts, a computed H statistic is non-negative. *)
Theorem calculate_kw_h_nonneg reg n gm gc e var h :
  1 <= n -> (0 < var)%Q -> (forall g c, gc !! g = Some c -> 0 <= c) ->
  calculate_kw_h reg n gm gc e var = inr h -> (0 <= h)%Q.
Proof.
  intros Hn Hv Hc H. unfold calculate_kw_h in H.
  destruct (emapM _ reg) as [err|terms] eqn:E; [discriminate|].
  simpl in H. injection H as <-.
  apply Qmult_le_0_compat.
  - apply Qle_shift_div_l; [reflexivity|]. rewrite Qmult_0_l.
    change 0%Q with (inject_Z 0). rewrite <- Zle_Qle. lia.
  - apply GenProps.qsum_nonneg.
    apply (KwProps.Forall2_Forall_r _ _ reg _ (fun g t Ht => KwProps.kw_term_nonneg gm gc e var g t Hv Hc Ht)).
    exact (GenProps.emapM_inr _ _ _ E).
Qed.

Lemma calculate_kw_h_nonneg_witness :
  1 <= 6 /\ (0 < inject_Z (6 ^ 2 - 1) / 12)%Q /\
  (forall g c, (<["A" := 3]> (<["B" := 3]> ∅) : gmap string Z) !! g = Some c -> 0 <= c) /\
  calculate_kw_h ["A"; "B"]%string 6 (<["A" := 2%Q]> (<["B" := 5%Q]> ∅))
    (<["A" := 3]> (<["B" := 3]> ∅)) (7 # 2) (inject_Z (6 ^ 2 - 1) / 12)
    = inr (453600 # 235200)%Q /\
  (0 <= 453600 # 235200)%Q.
Proof.
  assert (Hc : forall g c, (<["A" := 3]> (<["B" := 3]> ∅) : gmap string Z) !! g = Some c -> 0 <= c).
  { intros g c Hg. apply lookup_insert_Some in Hg as [[_ <-] | [_ Hg]]; [lia|].
    apply lookup_insert_Some in Hg as [[_ <-] | [_ Hg]]; [lia|].
    rewrite lookup_empty in Hg. discriminate. }
  assert (Hk : calculate_kw_h ["A"; "B"]%string 6 (<["A" := 2%Q]> (<["B" := 5%Q]> ∅))
    (<["A" := 3]> (<["B" := 3]> ∅)) (7 # 2) (inject_Z (6 ^ 2 - 1) / 12)
    = inr (453600 # 235200)%Q) by (vm_compute; reflexivity).
  split; [lia|]. split; [reflexivity|]. split; [exact Hc|]. split; [exact Hk|].
  apply (calculate_kw_h_nonneg ["A"; "B"]%string 6 (<["A" := 2%Q]> (<["B" := 5%Q]> ∅))
           (<["A" := 3]> (<["B" := 3]> ∅)) (7 # 2) (inject_Z (6 ^ 2 - 1) / 12));
    [lia | reflexivity | exact Hc | exact Hk].
Defined.

(** calculate_kw_h: a zero variance (a single case in kruskal_wallis,
    where variance = (N^2 - 1)/12) makes the first group's term raise
    ZeroDivisionError once its count and mean are present. *)
Theorem calculate_kw_h_zero_variance g reg' n gm gc e var c m :
  (var == 0)%Q -> gc !! g = Some c -> gm !! g = Some m ->
  calculate_kw_h (g :: reg') n gm gc e var = inl ZeroDivisionError.
Proof.
  intros Hv Hc Hm. unfold calculate_kw_h. simpl emapM. unfold dict_get.
  rewrite Hc, Hm. simpl ebind. unfold py_div.
  apply Qeq_bool_iff in Hv. rewrite Hv. reflexivity.
Qed.

Lemma calculate_kw_h_zero_variance_witness :
  (inject_Z (1 ^ 2 - 1) / 12 == 0)%Q /\
  (<["A" := 1]> ∅ : gmap string Z) !! "A"%string = Some 1 /\
  (<["A" := 1%Q]> ∅ : gmap string Q) !! "A"%string = Some 1%Q /\
  calculate_kw_h ["A"]%string 1 (<["A" := 1%Q]> ∅) (<["A" := 1]> ∅)
    (inject_Z (1 + 1) / 2) (inject_Z (1 ^ 2 - 1) / 12) = inl ZeroDivisionError.
Proof.
  split; [reflexivity|]. split; [reflexivity|]. split; [reflexivity|].
  apply (calculate_kw_h_zero_variance "A"%string [] 1 _ _ _ _ 1 1%Q); reflexivity.
Defined.

(** ** kruskal_wallis *)

(** kruskal_wallis: with data stored and an empty group registry
    (add_data with no labels), the method completes: no counts or means,
    H = 0, degf = -1, and the critical value, p-value and outcome come from
    the chi-square functions at -1 degrees of freedom. *)
Theorem kruskal_wallis_empty_registry p c alpha s gs vs :
  st_data s = Some (gs, vs) -> st_groups s = [] ->
  let (s', r) := kruskal_wallis p c alpha s in
  r = inr tt /\ st_alpha s' = Some alpha /\
  st_group_counts s' = Some ∅ /\ st_group_means s' = Some ∅ /\
  st_degf s' = Some (-1) /\ st_critical_value s' = Some (p (1 - alpha)%Q (-1)) /\
  exists h, (h == 0)%Q /\ st_h_value s' = Some h /\
    st_p_value s' = Some (1 - c h (-1)%Z)%Q /\
    st_outcome s' = Some (if Qle_bool (p (1 - alpha)%Q (-1)) h then Rejected else NotRejected).
Proof.
  intros Hd Hg. destruct (Ranks.ranks_of_sum vs) as [rs [Hr _]].
  unfold kruskal_wallis, bind, get, modify, lift, ret, raise,
    get_group_indices, get_ranks.
  unfold bind, get, lift, ret, raise.
  repeat first [ rewrite Hd | rewrite Hg | rewrite Hr
               | progress cbv beta iota zeta | progress Methods.unfold_state ].
  do 6 (split; [reflexivity|]).
  eexists. split; [|split; [reflexivity | split; reflexivity]].
  unfold calculate_kw_h. simpl. ring.
Qed.

Lemma kruskal_wallis_empty_registry_witness :
  st_data (add_data [] [4; 8] [] init_state) = Some ([], [4; 8]) /\
  st_groups (add_data [] [4; 8] [] init_state) = [] /\
  let (s', r) := kruskal_wallis (fun _ _ => 0%Q) (fun _ _ => 0%Q) (5 # 100)
                   (add_data [] [4; 8] [] init_state) in
  r = inr tt /\ st_alpha s' = Some (5 # 100) /\
  st_group_counts s' = Some ∅ /\ st_group_means s' = Some ∅ /\
  st_degf s' = Some (-1) /\ st_critical_value s' = Some 0%Q /\
  exists h, (h == 0)%Q /\ st_h_value s' = Some h /\
    st_p_value s' = Some (1 - 0)%Q /\
    st_outcome s' = Some (if Qle_bool 0 h then Rejected else NotRejected).
Proof.
  split; [reflexivity|]. split; [reflexivity|].
  exact (kruskal_wallis_empty_registry (fun _ _ => 0%Q) (fun _ _ => 0%Q) (5 # 100)
           (add_data [] [4; 8] [] init_state) [] [4; 8] eq_refl eq_refl).
Defined.

(** kruskal_wallis: once data is stored and the registry is non-empty, the
    call overwrites alpha, group_indices and value_ranks, raises TypeError,
    and leaves every other attribute as it was, so results of an earlier
    run (counts, means, degf, H, critical value, p-value, outcome) stay. *)
Theorem kruskal_wallis_type_error_state p c alpha s gs vs rs :
  st_data s = Some (gs, vs) -> st_groups s <> [] -> ranks_of vs = inr rs ->
  kruskal_wallis p c alpha s =
    (set_value_ranks (Some rs)
       (set_group_indices (Some (group_indices_of gs (st_groups s)))
          (set_alpha (Some alpha) s)),
     inl TypeError).
Proof. apply KwProps.kw_type_error_ranks. Qed.

Lemma kruskal_wallis_type_error_state_witness :
  st_data (add_data ["A"; "B"]%string [2; 1] ["A"; "B"]%string init_state)
    = Some (["A"; "B"]%string, [2; 1]) /\
  st_groups (add_data ["A"; "B"]%string [2; 1] ["A"; "B"]%string init_state) <> [] /\
  ranks_of [2; 1] = inr [2%Q; 1%Q] /\
  kruskal_wallis (fun _ _ => 0%Q) (fun _ _ => 0%Q) (5 # 100)
      (add_data ["A"; "B"]%string [2; 1] ["A"; "B"]%string init_state) =
    (set_value_ranks (Some [2%Q; 1%Q])
       (set_group_indices (Some (group_indices_of ["A"; "B"]%string ["A"; "B"]%string))
          (set_alpha (Some (5 # 100))
             (add_data ["A"; "B"]%string [2; 1] ["A"; "B"]%string init_state))),
     inl TypeError).
Proof.
  split; [reflexivity|]. split; [discriminate|]. split; [vm_compute; reflexivity|].
  exact (kruskal_wallis_type_error_state (fun _ _ => 0%Q) (fun _ _ => 0%Q) (5 # 100)
           (add_data ["A"; "B"]%string [2; 1] ["A"; "B"]%string init_state)
           ["A"; "B"]%string [2; 1] [2%Q; 1%Q] eq_refl ltac:(discriminate)
           ltac:(vm_compute; reflexivity)).
Defined.

(** ** conover_iman and the reachable states *)

(** conover_iman: when the guard passes and data is stored, the method
    resets conover_results to an empty record set and then changes nothing
    else; it completes exactly when the registry has at most one group (no
    pair to compare), and otherwise raises on the first pair. *)
Theorem conover_iman_completes_iff tp tc s gs vs :
  conover_check s = inr tt -> st_data s = Some (gs, vs) ->
  exists r, conover_iman tp tc s = (set_conover_results (Some []) s, r) /\
    (r = inr tt <-> (length (st_groups s) <= 1)%nat).
Proof.
  intros Hc Hd. unfold conover_iman, bind, get, lift, modify.
  rewrite Hc. unfold conover_R. rewrite Hd. cbv beta iota zeta. cbn [ebind attr].
  destruct (KwProps.conover_loop_state tp tc (Z.of_nat (length (st_groups s)))
              (sum_squares (gs, vs).2) (combinations2 (st_groups s))
              (set_conover_results (Some []) s)) as [r [E Hr]].
  Methods.unfold_state. rewrite E. exists r. split; [reflexivity|].
  rewrite Hr. apply KwProps.combinations2_nil.
Qed.

Lemma conover_iman_completes_iff_witness :
  conover_check (set_outcome (Some Rejected) (set_h_value (Some 3%Q)
     (add_data ["A"; "B"]%string [1; 2] ["A"; "B"]%string init_state))) = inr tt /\
  st_data (set_outcome (Some Rejected) (set_h_value (Some 3%Q)
     (add_data ["A"; "B"]%string [1; 2] ["A"; "B"]%string init_state)))
    = Some (["A"; "B"]%string, [1; 2]) /\
  exists r, conover_iman (fun _ _ => 0%Q) (fun _ _ => 0%Q)
      (set_outcome (Some Rejected) (set_h_value (Some 3%Q)
         (add_data ["A"; "B"]%string [1; 2] ["A"; "B"]%string init_state)))
    = (set_conover_results (Some []) (set_outcome (Some Rejected) (set_h_value (Some 3%Q)
         (add_data ["A"; "B"]%string [1; 2] ["A"; "B"]%string init_state))), r) /\
    (r = inr tt <-> (length ["A"; "B"]%string <= 1)%nat).
Proof.
  split; [reflexivity|]. split; [reflexivity|].
  exact (conover_iman_completes_iff (fun _ _ => 0%Q) (fun _ _ => 0%Q)
           (set_outcome (Some Rejected) (set_h_value (Some 3%Q)
              (add_data ["A"; "B"]%string [1; 2] ["A"; "B"]%string init_state)))
           ["A"; "B"]%string [1; 2] eq_refl eq_refl).
Defined.

(** Every reachable state: h_value and outcome are set together (neither
    method can fail between the two assignments). *)
Theorem reachable_h_outcome p c tp tc s :
  reachable p c tp tc s -> (st_h_value s = None <-> st_outcome s = None).
Proof. apply Methods.reachable_consistent. Qed.

Lemma reachable_h_outcome_witness :
  reachable (fun _ _ => 0%Q) (fun _ _ => 0%Q) (fun _ _ => 0%Q) (fun _ _ => 0%Q)
    (add_data [] [1] [] init_state) /\
  (st_h_value (add_data [] [1] [] init_state) = None <->
   st_outcome (add_data [] [1] [] init_state) = None).
Proof.
  assert (H : reachable (fun _ _ => 0%Q) (fun _ _ => 0%Q) (fun _ _ => 0%Q) (fun _ _ => 0%Q)
                (add_data [] [1] [] init_state)).
  { apply reach_add_data; [apply reach_init|]. split; [constructor | simpl; tauto]. }
  split; [exact H|]. exact (reachable_h_outcome _ _ _ _ _ H).
Defined.

(** Every reachable state: conover_results is unset or empty; no
    Conover-Iman record is ever produced, since every pair raises at [len]
    of a generator before its entries are appended. *)
Theorem reachable_no_conover_records p c tp tc s :
  reachable p c tp tc s ->
  st_conover_results s = None \/ st_conover_results s = Some [].
Proof.
  induction 1 as [| s groups values reg _ IH _
                  | s alpha s' r _ IH Hkw | s s' r _ IH Hci].
  - left. reflexivity.
  - exact IH.
  - apply Methods.kw_cases in Hkw as [[_ [-> _]] | [_ [_ [_ [_ [Hcr _]]]]]].
    + exact IH.
    + rewrite Hcr. exact IH.
  - apply KwProps.conover_iman_state in Hci as [-> | ->].
    + exact IH.
    + right. reflexivity.
Qed.

Lemma reachable_no_conover_records_witness :
  reachable (fun _ _ => 0%Q) (fun _ _ => 0%Q) (fun _ _ => 0%Q) (fun _ _ => 0%Q)
    (add_data [] [1] [] init_state) /\
  (st_conover_results (add_data [] [1] [] init_state) = None \/
   st_conover_results (add_data [] [1] [] init_state) = Some []).
Proof.
  assert (H : reachable (fun _ _ => 0%Q) (fun _ _ => 0%Q) (fun _ _ => 0%Q) (fun _ _ => 0%Q)
                (add_data [] [1] [] init_state)).
  { apply reach_add_data; [apply reach_init|]. split; [constructor | simpl; tauto]. }
  split; [exact H|]. exact (reachable_no_conover_records _ _ _ _ _ H).
Defined.
